(** * jobs_scraper: the aggregation-and-filtering pipeline

    A shallow embedding of [jobs_scraper.py], and the properties of its
    text heuristics, aggregator, filter, source adapters and delivery
    fallback.  Part I is the program, function by function; Part II the
    vocabulary the properties are stated in; Part III the proofs.

    Conventions.
    - A Python [str] is a list of Unicode code points ([list N]); an
      argument that may be [None] is an [option].
    - Python integers are [Z].
    - The parts of the Unicode character database the program relies on
      through [str.lower], the regular expression class [\d] and [int]
      enter as the interface [UCD]; whitespace ([str.split], [\s]) is a
      short fixed table and is written out.
    - Code that can raise returns a [result]; code with effects (network,
      standard output, files, mail) is written in a state-and-exception
      monad over an explicit world. *)

From Stdlib Require Import ZArith NArith Ascii String DecimalString List Lia Bool.
From stdpp Require Import base option list strings gmap sorting.

Open Scope N_scope.

(** * Part I: the program *)

(** ** Text *)

Abbreviation char := N (only parsing).
Abbreviation str := (list N) (only parsing).

(** A source literal: the code points of an ASCII string. *)
Definition str_of (s : string) : str :=
  N_of_ascii <$> String.list_ascii_of_string s.

(** [Py_UNICODE_ISSPACE]: what [str.split()] splits on and what [\s]
    matches in a [str] pattern. *)
Definition is_space (c : char) : bool :=
  ((0x09 <=? c) && (c <=? 0x0D)) || ((0x1C <=? c) && (c <=? 0x20))
  || (c =? 0x85) || (c =? 0xA0) || (c =? 0x1680)
  || ((0x2000 <=? c) && (c <=? 0x200A))
  || (c =? 0x2028) || (c =? 0x2029) || (c =? 0x202F) || (c =? 0x205F)
  || (c =? 0x3000).

(** [t.split()]: maximal runs of non-whitespace, in order.  [w] is the
    word being read. *)
Fixpoint split_acc (w : str) (t : str) : list str :=
  match t with
  | [] => match w with [] => [] | _ => [w] end
  | c :: t' =>
      if is_space c
      then match w with [] => split_acc [] t' | _ => w :: split_acc [] t' end
      else split_acc (w ++ [c]) t'
  end.

Definition split (t : str) : list str := split_acc [] t.

(** [sep.join(l)] *)
Fixpoint join (sep : str) (l : list str) : str :=
  match l with
  | [] => []
  | [w] => w
  | w :: l' => w ++ sep ++ join sep l'
  end.

(** Truthiness of an optional string: [None] and [""] are falsy. *)
Definition truthy (t : option str) : bool :=
  match t with Some (_ :: _) => true | _ => false end.

(** [a or b] on optional strings. *)
Definition or_else (a b : option str) : option str :=
  if truthy a then a else b.

(** [t or ""] *)
Definition or_empty (t : option str) : str :=
  match t with Some s => s | None => [] end.

(** [normalize_text] *)
Definition normalize_text (t : option str) : str :=
  if truthy t then join (str_of " ") (split (or_empty t)) else [].

(** [hay.startswith(needle)] *)
Fixpoint starts_with (needle hay : str) : bool :=
  match needle, hay with
  | [], _ => true
  | a :: needle', b :: hay' => (a =? b) && starts_with needle' hay'
  | _ :: _, [] => false
  end.

(** [needle in hay] on strings. *)
Fixpoint contains (needle hay : str) : bool :=
  starts_with needle hay
  || match hay with [] => false | _ :: hay' => contains needle hay' end.

(** [str(n)], the decimal numeral of a natural number. *)
Definition numeral_of (n : N) : str :=
  str_of (DecimalString.NilZero.string_of_uint (N.to_uint n)).

(** ** Exceptions *)

(** A raised exception: the name of its class and its message.  [except
    Exception] catches the first kind only ([KeyboardInterrupt] and
    [SystemExit] derive from [BaseException] alone). *)
Inductive exn :=
  | Exception (cls : string) (msg : list N)
  | BaseException (cls : string) (msg : list N).

Inductive result (A : Type) :=
  | Ok (a : A)
  | Raise (e : exn).
Arguments Ok {A} a.
Arguments Raise {A} e.

#[global] Instance result_ret : MRet result := λ A a, Ok a.
#[global] Instance result_bind : MBind result := λ A B f r,
  match r with Ok a => f a | Raise e => Raise e end.

(** ** The Unicode character database *)

Definition ascii_lower (c : char) : char :=
  if (0x41 <=? c) && (c <=? 0x5A) then c + 32 else c.

Definition ascii_decimal (c : char) : option Z :=
  if (0x30 <=? c) && (c <=? 0x39) then Some (Z.of_N (c - 0x30)) else None.

(** What the program uses of the database, and the facts about it the
    proofs rest on: [lower] is [str.lower]; [decimal c] is the value of
    [c] when [c] is a decimal digit (general category Nd: what [\d]
    matches and [int] reads), [None] otherwise. *)
Class UCD := {
  lower : str → str;
  decimal : char → option Z;
  lower_ascii s : Forall (λ c, c < 128) s → lower s = ascii_lower <$> s;
  decimal_latin1 c : c < 256 → decimal c = ascii_decimal c;
  decimal_space c : is_space c = true → decimal c = None;
  (* General Punctuation, Superscripts and Subscripts, Currency Symbols *)
  decimal_punct c : 0x2000 ≤ c → c < 0x20D0 → decimal c = None;
}.

(** ** Regular expressions

    The fragment of [re] the program's four patterns are written in, and
    the backtracking matcher of [re.search]: leftmost start, greedy
    repetition that gives characters back one at a time. *)

Inductive cls :=
  | CDigit                  (* \d *)
  | CSpace                  (* \s *)
  | CSet (cs : list N).     (* a literal character, or [...] *)

Inductive regex :=
  | Emp
  | Chr (a : cls)
  | Rep (a : cls) (lo : nat) (hi : option nat)  (* a{lo,hi}; * is {0,}, ? is {0,1} *)
  | Grp (i : nat) (r : regex)                   (* the i-th ( ... ) *)
  | Seq (r1 r2 : regex).

Arguments Rep a lo%_nat hi.
Arguments Grp i%_nat r.

Definition seq_of (rs : list regex) : regex := foldr Seq Emp rs.

Definition lit (s : string) : regex := seq_of ((λ c, Chr (CSet [c])) <$> str_of s).

(** The groups of a match in progress, and of a match object. *)
Abbreviation groups := (gmap nat (list N)) (only parsing).

Definition room (hi : option nat) : bool :=
  match hi with Some 0%nat => false | _ => true end.

(** Greedy repetition of one character class, then [k] on the rest. *)
Fixpoint rep {A} (p : char → bool) (lo : nat) (hi : option nat)
    (k : str → option A) (s : str) : option A :=
  let stop := match lo with O => k s | S _ => None end in
  match s with
  | c :: s' =>
      if p c && room hi
      then match rep p (pred lo) (pred <$> hi) k s' with
           | Some r => Some r
           | None => stop
           end
      else stop
  | [] => stop
  end.

(** ** Experience-range extraction *)

Section Extraction.

Context {U : UCD}.

Definition is_digit (c : char) : bool := bool_decide (is_Some (decimal c)).

Definition in_cls (a : cls) (c : char) : bool :=
  match a with
  | CDigit => is_digit c
  | CSpace => is_space c
  | CSet cs => bool_decide (c ∈ cs)
  end.

(** Match [r] at the start of [s], then [k] on the rest. *)
Fixpoint rmatch (r : regex) (s : str) (g : groups)
    (k : str → groups → option groups) : option groups :=
  match r with
  | Emp => k s g
  | Chr a =>
      match s with
      | c :: s' => if in_cls a c then k s' g else None
      | [] => None
      end
  | Rep a lo hi => rep (in_cls a) lo hi (λ s', k s' g) s
  | Grp i r =>
      rmatch r s g (λ s' g', k s' (<[i := take (length s - length s') s]> g'))
  | Seq r1 r2 => rmatch r1 s g (λ s' g', rmatch r2 s' g' k)
  end.

(** [re.search(r, s)]: the match at the first position that has one. *)
Fixpoint re_search (r : regex) (s : str) : option groups :=
  match rmatch r s ∅ (λ _ g, Some g) with
  | Some g => Some g
  | None => match s with [] => None | _ :: s' => re_search r s' end
  end.

(** [m.group(i)]; [None] when the group took no part in the match. *)
Definition group (m : groups) (i : nat) : option str := m !! i.

(** The number a string of decimal digits writes. *)
Definition digits_value (d : str) : Z :=
  foldl (λ acc c, 10 * acc + default 0 (decimal c))%Z 0%Z d.

(** [int(x)] for [x] a string of decimal digits; [int(None)] is a
    [TypeError], and a string [int] cannot read is a [ValueError] (signs,
    blanks and underscores, which [int] also reads, do not occur in what
    [\d{1,2}] captures and are left out; the messages are abridged). *)
Definition py_int (x : option str) : result Z :=
  match x with
  | None => Raise (Exception "TypeError" (str_of "int() argument must be a string"))
  | Some d =>
      if bool_decide (d ≠ []) && forallb is_digit d
      then Ok (digits_value d)
      else Raise (Exception "ValueError" (str_of "invalid literal for int()"))
  end.

(** (\d{1,2})\s*[-â€“]\s*(\d{1,2})\s*years?  The bracket holds four
    characters: the hyphen, U+00E2, U+20AC and U+201C. *)
Definition P_range : regex :=
  seq_of [Grp 1 (Rep CDigit 1 (Some 2%nat)); Rep CSpace 0 None;
          Chr (CSet [0x2D; 0xE2; 0x20AC; 0x201C]); Rep CSpace 0 None;
          Grp 2 (Rep CDigit 1 (Some 2%nat)); Rep CSpace 0 None;
          lit "year"; Rep (CSet [0x73]) 0 (Some 1%nat)].

(** (\d{1,2})\s*\+\s*years? *)
Definition P_plus : regex :=
  seq_of [Grp 1 (Rep CDigit 1 (Some 2%nat)); Rep CSpace 0 None; lit "+";
          Rep CSpace 0 None; lit "year"; Rep (CSet [0x73]) 0 (Some 1%nat)].

(** minimum\s+of\s+(\d{1,2})\s*years? *)
Definition P_minimum : regex :=
  seq_of [lit "minimum"; Rep CSpace 1 None; lit "of"; Rep CSpace 1 None;
          Grp 1 (Rep CDigit 1 (Some 2%nat)); Rep CSpace 0 None;
          lit "year"; Rep (CSet [0x73]) 0 (Some 1%nat)].

(** (\d{1,2})\s*years? *)
Definition P_bare : regex :=
  seq_of [Grp 1 (Rep CDigit 1 (Some 2%nat)); Rep CSpace 0 None;
          lit "year"; Rep (CSet [0x73]) 0 (Some 1%nat)].

(** [parse_experience_text] *)
Definition parse_experience_text (text : option str)
    : result (option Z * option Z) :=
  if negb (truthy text) then Ok (None, None) else
  let text := lower (or_empty text) in
  match re_search P_range text with
  | Some m =>
      a ← py_int (group m 1%nat); b ← py_int (group m 2%nat); Ok (Some a, Some b)
  | None =>
  match re_search P_plus text with
  | Some m => a ← py_int (group m 1%nat); Ok (Some a, None)
  | None =>
  match re_search P_minimum text with
  | Some m => a ← py_int (group m 1%nat); Ok (Some a, None)
  | None =>
  match re_search P_bare text with
  | Some m =>
      a ← py_int (group m 1%nat); b ← py_int (group m 1%nat); Ok (Some a, Some b)
  | None => Ok (None, None)
  end end end end.

End Extraction.

(** ** Experience-range acceptance *)

Definition MIN_YEARS : Z := 2.
Definition MAX_YEARS : Z := 6.

(** The [return] statements of [experience_matches], top to bottom. *)
Inductive arm :=
  | NoRequirement   (* return True *)
  | BothBounds      (* return not (max_y < MIN_YEARS or min_y > MAX_YEARS) *)
  | OnlyMin         (* return min_y <= MAX_YEARS *)
  | OnlyMax         (* return max_y >= MIN_YEARS *)
  | Fallthrough.    (* return False *)

(** [experience_matches], with the [return] that produced the verdict. *)
Definition experience_matches_at (min_y max_y : option Z) : arm * bool :=
  match min_y, max_y with
  | None, None => (NoRequirement, true)
  | _, _ =>
  match min_y, max_y with
  | Some mn, Some mx =>
      (BothBounds, negb ((mx <? MIN_YEARS) || (mn >? MAX_YEARS)))%Z
  | _, _ =>
  match min_y with
  | Some mn => (OnlyMin, (mn <=? MAX_YEARS)%Z)
  | None =>
  match max_y with
  | Some mx => (OnlyMax, (mx >=? MIN_YEARS)%Z)
  | None => (Fallthrough, false)
  end end end end.

Definition experience_matches (min_y max_y : option Z) : bool :=
  (experience_matches_at min_y max_y).2.

(** ** Job records, relevance, location and the filter *)

(** A record as the adapters build it: a dict with these six keys, any
    of whose values may be [None]. *)
Record job := Job {
  title : option str;
  company : option str;
  location : option str;
  link : option str;
  source : option str;
  snippet : option str;
}.

#[global] Instance job_eq_dec : EqDecision job.
Proof. solve_decision. Defined.

Definition KEYWORDS : list str :=
  str_of <$> [ "DevOps Engineer"; "Cloud Engineer"; "Site Reliability Engineer";
               "Platform Engineer"; "Infrastructure Engineer"; "AWS Engineer";
               "Azure DevOps Engineer"; "Kubernetes Engineer" ]%string.

Section Heuristics.

Context {U : UCD}.

(** [location_matches] *)
Definition location_matches (location_text : option str) : bool :=
  if negb (truthy location_text) then true else
  let t := lower (or_empty location_text) in
  if contains (str_of "remote") t || contains (str_of "india") t
     || contains (str_of "india remote") t || contains (str_of "pan india") t
  then true else false.

(** [text_contains_keywords] *)
Definition text_contains_keywords (text : option str) (keywords : list str)
    : bool :=
  let t := lower (or_empty text) in
  if existsb (λ kw, contains (lower kw) t) keywords then true else
  if contains (str_of "devops") t || contains (str_of "cloud") t
     || contains (str_of "sre") t || contains (str_of "site reliability") t
  then true else false.

(** The text [filter_jobs] searches: the four fields joined by single
    spaces, then normalised. *)
Definition combined_text (j : job) : str :=
  normalize_text
    (Some (join (str_of " ")
             [or_empty (title j); or_empty (company j);
              or_empty (location j); or_empty (snippet j)])).

(** How one turn of the loop of [filter_jobs] ends: at one of its three
    [continue]s, or at the [append]. *)
Inductive verdict := Irrelevant | WrongExperience | WrongLocation | Kept.

Definition filter_step (j : job) : result verdict :=
  let combined_text := combined_text j in
  if negb (text_contains_keywords (Some combined_text) KEYWORDS)
  then Ok Irrelevant else
  '(min_y, max_y) ← parse_experience_text (Some combined_text);
  if negb (experience_matches min_y max_y) then Ok WrongExperience else
  if negb (location_matches (or_else (location j) (snippet j)))
  then Ok WrongLocation else
  Ok Kept.

Fixpoint filter_loop (raw_jobs filtered : list job) : result (list job) :=
  match raw_jobs with
  | [] => Ok filtered
  | j :: rest =>
      v ← filter_step j;
      filter_loop rest
        (match v with Kept => filtered ++ [j] | _ => filtered end)
  end.

(** [filter_jobs] (the progress line it prints is written by [main]) *)
Definition filter_jobs (raw_jobs : list job) : result (list job) :=
  filter_loop raw_jobs [].

End Heuristics.

(** ** The aggregator

    The second half of [collect_jobs].  [uniq] is a dict, which keeps its
    keys in the order they were first inserted: a list of (key, record)
    pairs that grows at its end. *)

(** [j.get("link") or j.get("title") or ""] *)
Definition job_key (j : job) : str :=
  or_empty (or_else (or_else (link j) (title j)) (Some [])).

Definition dedup_step (uniq : list (str * job)) (j : job) : list (str * job) :=
  let link := job_key j in
  if negb (truthy (Some link)) then uniq else
  let key := link in
  if negb (bool_decide (key ∈ uniq.*1)) then uniq ++ [(key, j)] else uniq.

(** [uniq] after the loop over [jobs]. *)
Definition dedup_dict (jobs : list job) : list (str * job) :=
  foldl dedup_step [] jobs.

(** [list(uniq.values())] *)
Definition dedup (jobs : list job) : list job := (dedup_dict jobs).*2.

(** ** Programs with effects

    [prog S A]: a computation over a state [S] that returns an [A] or
    raises; what it did to the state before raising stays done. *)

Definition prog (S A : Type) : Type := S → result A * S.

#[global] Instance prog_ret {S} : MRet (prog S) := λ A a s, (Ok a, s).
#[global] Instance prog_bind {S} : MBind (prog S) := λ A B f m s,
  match m s with
  | (Ok a, s') => f a s'
  | (Raise e, s') => (Raise e, s')
  end.

Definition raise {S A} (e : exn) : prog S A := λ s, (Raise e, s).

(** [try: body except Exception as e: handler] *)
Definition try_except {S A} (body : prog S A)
    (handler : string → str → prog S A) : prog S A :=
  λ s, match body s with
       | (Raise (Exception cls msg), s') => handler cls msg s'
       | r => r
       end.

(** A pure computation that may raise, run as a program. *)
Definition of_result {S A} (r : result A) : prog S A := λ s, (r, s).

(** [for x in l: body] *)
Fixpoint for_each {S X} (l : list X) (body : X → prog S ()) : prog S () :=
  match l with
  | [] => mret ()
  | x :: l' => body x ≫= λ _, for_each l' body
  end.

(** What a run leaves behind: the lines printed, the local files, the
    mail handed to the server, and the pauses taken. *)
Record world := World {
  stdout : list str;
  files : gmap string (list N);
  outbox : list (str * str);
  pauses : nat;
}.

(** A function's frame: the world, and a local variable. *)
Definition with_local {L A} (init : L) (body : prog (world * L) A)
    : prog world A :=
  λ w, let '(r, (w', _)) := body (w, init) in (r, w').

Definition in_world {L A} (m : prog world A) : prog (world * L) A :=
  λ '(w, l), let '(r, w') := m w in (r, (w', l)).

Definition get_local {L} : prog (world * L) L := λ '(w, l), (Ok l, (w, l)).

Definition set_local {L} (f : L → L) : prog (world * L) () :=
  λ '(w, l), (Ok (), (w, f l)).

(** [print(line)] *)
Definition print (line : str) : prog world () :=
  λ w, (Ok (), World (stdout w ++ [line]) (files w) (outbox w) (pauses w)).

(** [time.sleep(SLEEP_BETWEEN_REQUESTS)] *)
Definition sleep : prog world () :=
  λ w, (Ok (), World (stdout w) (files w) (outbox w) (S (pauses w))).

(** The file [name] now holds [text]. *)
Definition stored (name : string) (text : str) : prog world () :=
  λ w, (Ok (), World (stdout w) (<[name := text]> (files w)) (outbox w) (pauses w)).

(** ** The web

    What lies outside the program: the answer to a request ([requests.get]
    and the [text] of its response), the parser ([BeautifulSoup]), the
    selector engine ([select]) and the accessors of a parsed element.
    The first three can raise; the accessors of an element that was
    parsed do not. *)

Class web := Web {
  soup : Type;
  tag : Type;
  http_get : str → option str → result str;
  parse_html : str → result soup;
  select : soup → string → result (list tag);
  attr : tag → string → option str;           (* a.get(name) *)
  get_text : tag → str;                       (* a.get_text() *)
  find_parent : tag → option string → option tag;
}.

(** ** Source adapters and collection *)

Definition dquote : string := String (Ascii.ascii_of_nat 34) EmptyString.

Section Adapters.

Context {W : web}.

(** The request and the selector of [scrape_indeed]. *)
Definition indeed_url (query_kw : str) : str :=
  let q := join (str_of "+") (split query_kw) in
  str_of "https://in.indeed.com/jobs?q=" ++ q
  ++ str_of "+remote+cloud+devops&l=India".

Definition indeed_selector : string := "a[data-jk], .job_seen_beacon a".

(** The record [scrape_indeed] builds from one anchor. *)
Definition indeed_record (a : tag) : job :=
  let link := or_empty (attr a "href") in
  let link :=
    if truthy (Some link) && starts_with (str_of "/rc/") link
    then str_of "https://in.indeed.com" ++ link else link in
  let title := normalize_text (Some (get_text a)) in
  let parent := find_parent a None in
  let snippet :=
    match parent with
    | Some p => normalize_text (Some (get_text p))
    | None => []
    end in
  {| title := Some title; company := None; location := Some snippet;
     link := Some link; source := Some (str_of "Indeed");
     snippet := Some snippet |}.

(** [scrape_indeed]; the local is [results]. *)
Definition scrape_indeed (query_kw : str) : prog world (list job) :=
  with_local []
    (let url := indeed_url query_kw in
     try_except
       (r ← in_world (of_result (http_get url None));
        in_world sleep;;
        soup ← in_world (of_result (parse_html r));
        cards ← in_world (of_result (select soup indeed_selector));
        for_each (take 25 cards)
          (λ a, set_local (λ results, results ++ [indeed_record a])))
       (λ _ e, in_world (print (str_of "Indeed scrape error: " ++ e)));;
     get_local).

(** The request and the selector of [scrape_wellfound]. *)
Definition wellfound_url (query_kw : str) : str :=
  let q := join (str_of "+") (split query_kw) in
  str_of "https://wellfound.com/jobs?search=" ++ q ++ str_of "&remote=true".

Definition wellfound_selector : string :=
  ("a[href*=" ++ dquote ++ "/jobs/" ++ dquote ++ "]")%string.

(** One turn of the loop of [scrape_wellfound]; the locals are [results]
    and [seen]. *)
Definition wellfound_turn (a : tag)
    : prog (world * (list job * gset (list N))) () :=
  let href := attr a "href" in
  if negb (truthy href) then mret () else
  let href := or_empty href in
  let link := if starts_with (str_of "/") href
              then str_of "https://wellfound.com" ++ href else href in
  '(_, seen) ← get_local;
  if bool_decide (link ∈ seen) then mret () else
  let title := normalize_text (Some (get_text a)) in
  set_local (λ '(results, seen),
    (results ++ [ {| title := Some title; company := None;
                     location := Some (str_of "Remote"); link := Some link;
                     source := Some (str_of "Wellfound");
                     snippet := Some title |} ],
     {[ link ]} ∪ seen)).

(** [scrape_wellfound] *)
Definition scrape_wellfound (query_kw : str) : prog world (list job) :=
  with_local ([], ∅)
    (let url := wellfound_url query_kw in
     try_except
       (r ← in_world (of_result (http_get url None));
        in_world sleep;;
        soup ← in_world (of_result (parse_html r));
        anchors ← in_world (of_result (select soup wellfound_selector));
        for_each anchors wellfound_turn)
       (λ _ e, in_world (print (str_of "Wellfound scrape error: " ++ e)));;
     '(results, _) ← get_local;
     mret results).

(** The request and the selector of [scrape_generic_site_search]. *)
Definition search_url : str := str_of "https://duckduckgo.com/html".

Definition search_query (domain kw : str) : str :=
  str_of "site:" ++ domain ++ str_of " " ++ kw ++ str_of " remote india".

Definition search_selector : string := "a.result__a".

(** The record [scrape_generic_site_search] builds from one anchor. *)
Definition search_record (domain : str) (a : tag) : job :=
  let link := attr a "href" in
  let title := normalize_text (Some (get_text a)) in
  let parent := find_parent a (Some "div"%string) in
  let snippet :=
    match parent with
    | Some p => normalize_text (Some (get_text p))
    | None => []
    end in
  {| title := Some title; company := Some domain; location := Some snippet;
     link := link; source := Some (str_of "Search:" ++ domain);
     snippet := Some snippet |}.

(** [scrape_generic_site_search] *)
Definition scrape_generic_site_search (domain kw : str)
    : prog world (list job) :=
  with_local []
    (let query := search_query domain kw in
     let url := search_url in
     try_except
       (r ← in_world (of_result (http_get url (Some query)));
        in_world sleep;;
        soup ← in_world (of_result (parse_html r));
        links ← in_world (of_result (select soup search_selector));
        for_each (take 15 links)
          (λ a, set_local (λ results, results ++ [search_record domain a])))
       (λ _ e, in_world (print (str_of "Generic search error for "
                                  ++ domain ++ str_of " " ++ e)));;
     get_local).

Definition big_tech_domains : list str :=
  str_of <$> [ "careers.google.com"; "careers.amazon.com"; "jobs.lever.co";
               "jobs.github.com"; "netflixjobs.com";
               "careers.microsoft.com" ]%string.

(** [collect_jobs]; the local is [jobs]. *)
Definition collect_jobs : prog world (list job) :=
  with_local []
    (for_each KEYWORDS
       (λ kw, found ← in_world (scrape_indeed kw);
              set_local (λ jobs, jobs ++ found));;
     for_each KEYWORDS
       (λ kw, found ← in_world (scrape_wellfound kw);
              set_local (λ jobs, jobs ++ found));;
     for_each big_tech_domains
       (λ domain,
          for_each (take 4 KEYWORDS)
            (λ kw, found ← in_world (scrape_generic_site_search domain kw);
                   set_local (λ jobs, jobs ++ found)));;
     jobs ← get_local;
     let results := dedup jobs in
     in_world (print (str_of "Collected "
                        ++ numeral_of (N.of_nat (length results))
                        ++ str_of " raw results"));;
     mret results).

End Adapters.

(** ** Delivery *)

(** The machine the program runs on: its environment variables, its
    clock ([utcnow fmt] is [datetime.utcnow().strftime(fmt)]), the mail
    server it reaches, step by step, and its file system.  A message is
    kept as its subject and its HTML part. *)
Class host := Host {
  environ : string → option str;                    (* os.environ.get *)
  utcnow : string → str;
  smtp_connect : result ();                         (* smtplib.SMTP(...) *)
  smtp_ehlo : result ();
  smtp_starttls : result ();
  smtp_login : str → str → result ();
  smtp_sendmail : str → list str → str → str → result ();
  smtp_quit : result ();
  fs_open : string → result ();         (* open(name, "w", encoding="utf-8") *)
  fs_write : string → str → result ();  (* f.write(text), and the close *)
  fs_torn : string → str → str;         (* what a write that fails leaves *)
}.

(** [with open(name, "w", encoding="utf-8") as f: f.write(text)].
    Opening can raise (a directory of that name, no permission), and
    then nothing is touched; once the file is open it is empty.  Writing,
    and the flush when the [with] block closes the file, can raise too (a
    character utf-8 cannot encode, a full disk): the file is then left
    with what reached it, and the exception goes on. *)
Definition write_file `{host} (name : string) (text : str) : prog world () :=
  of_result (fs_open name);;
  stored name [];;
  match fs_write name text with
  | Ok _ => stored name text
  | Raise e => stored name (fs_torn name text);; raise e
  end.

(** [html.escape(s)] *)
Definition html_escape (s : str) : str :=
  s ≫= λ c,
    if c =? 0x26 then str_of "&amp;"
    else if c =? 0x3C then str_of "&lt;"
    else if c =? 0x3E then str_of "&gt;"
    else if c =? 0x22 then str_of "&quot;"
    else if c =? 0x27 then str_of "&#x27;"
    else [c].

(** What the source has for a field that is missing. *)
Definition missing : str := [0xE2; 0x20AC; 0x201D].

Definition td (cell : str) : str :=
  str_of "<td style='padding:6px;border:1px solid #ddd'>" ++ cell
  ++ str_of "</td>".

Definition th (cell : string) : str :=
  str_of "<th style='padding:8px;border:1px solid #ddd'>" ++ str_of cell
  ++ str_of "</th>".

(** One row of the table of [build_email_html]. *)
Definition email_row (idx : N) (j : job) : str :=
  let title := html_escape (or_empty (or_else (title j) (Some missing))) in
  let company :=
    html_escape
      (or_empty (or_else (or_else (company j) (source j)) (Some missing))) in
  let location := html_escape (or_empty (or_else (location j) (Some missing))) in
  let link := or_empty (or_else (link j) (Some (str_of "#"))) in
  let snippet := html_escape (or_empty (or_else (snippet j) (Some []))) in
  str_of "<tr>" ++ td (numeral_of idx)
  ++ td (str_of "<a href='" ++ link ++ str_of "'>" ++ title ++ str_of "</a>")
  ++ td company ++ td location ++ td snippet ++ str_of "</tr>".

Section Delivery.

Context {U : UCD} {W : web} {H : host}.

(** [build_email_html] *)
Definition build_email_html (jobs : list job) : str :=
  match jobs with
  | [] => str_of "<p>No matching jobs found today.</p>"
  | _ =>
      let rows := imap (λ i j, email_row (N.of_nat (S i)) j) jobs in
      let table :=
        str_of "<table style='border-collapse:collapse;width:100%;font-family:Arial, sans-serif'>"
        ++ str_of "<thead><tr>"
        ++ th "#" ++ th "Title" ++ th "Company" ++ th "Location" ++ th "Snippet"
        ++ str_of "</tr></thead>"
        ++ str_of "<tbody>" ++ mjoin rows ++ str_of "</tbody>"
        ++ str_of "</table>" in
      let head :=
        str_of "<p>Found " ++ numeral_of (N.of_nat (length jobs))
        ++ str_of " matching jobs on " ++ utcnow "%Y-%m-%d %H:%M UTC"
        ++ str_of ".</p>" in
      head ++ table
  end.

Definition GMAIL_USER : option str := environ "GMAIL_USER".
Definition GMAIL_APP_PASSWORD : option str := environ "GMAIL_APP_PASSWORD".
Definition EMAIL_TO : option str :=
  match environ "EMAIL_TO" with Some to => Some to | None => GMAIL_USER end.

(** [str(x)] of an optional string. *)
Definition py_str (x : option str) : str :=
  match x with Some s => s | None => str_of "None" end.

(** The message has been handed to the server. *)
Definition sent (subject html_body : str) : prog world () :=
  λ w, (Ok (), World (stdout w) (files w)
                 (outbox w ++ [(subject, html_body)]) (pauses w)).

(** [send_email] *)
Definition send_email (subject html_body : str) : prog world () :=
  if negb (truthy GMAIL_USER) || negb (truthy GMAIL_APP_PASSWORD)
  then raise (Exception "RuntimeError"
                (str_of "GMAIL_USER and GMAIL_APP_PASSWORD environment variables must be set."))
  else
    of_result smtp_connect;;
    of_result smtp_ehlo;;
    of_result smtp_starttls;;
    of_result (smtp_login (or_empty GMAIL_USER) (or_empty GMAIL_APP_PASSWORD));;
    of_result (smtp_sendmail (or_empty GMAIL_USER) [py_str EMAIL_TO]
                 subject html_body);;
    sent subject html_body;;
    of_result smtp_quit;;
    print (str_of "Email sent to " ++ py_str EMAIL_TO).

(** The subject line [main] composes. *)
Definition email_subject : str :=
  [0xF0; 0x178; 0x201D; 0x17D] ++ str_of " Daily Cloud & DevOps Jobs "
  ++ [0xE2; 0x20AC; 0x201C] ++ str_of " " ++ utcnow "%Y-%m-%d".

(** [main], with the line [filter_jobs] prints. *)
Definition main : prog world () :=
  print (str_of "Starting job collection...");;
  raw ← collect_jobs;
  matches ← of_result (filter_jobs raw);
  print (str_of "Filtered down to "
           ++ numeral_of (N.of_nat (length matches))
           ++ str_of " matching jobs");;
  let html_body := build_email_html matches in
  let subject := email_subject in
  try_except (send_email subject html_body)
    (λ _ e, print (str_of "Failed to send email: " ++ e);;
            write_file "jobs_output.html" html_body).

End Delivery.

(** * Part II: the vocabulary of the properties *)

(** ** Words, repetitions and matches *)

(** A word of [split]'s output: not empty, no whitespace inside. *)
Definition word (w : str) : Prop := w ≠ [] ∧ Forall (λ c, is_space c = false) w.

Definition within (hi : option nat) (n : nat) : Prop :=
  match hi with Some h => (n ≤ h)%nat | None => True end.

(** No character of the class comes next. *)
Definition stops (p : char → bool) (s : str) : Prop :=
  match s with c :: _ => p c = false | [] => True end.

Section Vocabulary.

Context {U : UCD}.

(** [matches r m g g']: the text [m] is in the language of [r], and
    reading it takes the groups from [g] to [g']. *)
Inductive matches : regex → str → groups → groups → Prop :=
  | matches_emp g : matches Emp [] g g
  | matches_chr a c g : in_cls a c = true → matches (Chr a) [c] g g
  | matches_rep a lo hi m g :
      Forall (λ c, in_cls a c = true) m → (lo ≤ length m)%nat →
      within hi (length m) → matches (Rep a lo hi) m g g
  | matches_grp i r m g g' :
      matches r m g g' → matches (Grp i r) m g (<[i := m]> g')
  | matches_seq r1 r2 m1 m2 g g' g'' :
      matches r1 m1 g g' → matches r2 m2 g' g'' →
      matches (Seq r1 r2) (m1 ++ m2) g g''.

(** [r] matches somewhere in [s]. *)
Definition occurs (r : regex) (s : str) : Prop :=
  ∃ pre m post g, s = pre ++ m ++ post ∧ matches r m ∅ g.

(** Some occurrence of [r] in [t] captures the groups [g]. *)
Definition captured (r : regex) (t : str) (g : groups) : Prop :=
  ∃ pre m post, t = pre ++ m ++ post ∧ matches r m ∅ g.

(** One or two decimal digits: what [(\d{1,2})] captures. *)
Definition numeral (d : str) : Prop :=
  (1 ≤ length d ≤ 2)%nat ∧ Forall (λ c, is_digit c = true) d.

Definition spaces (w : str) : Prop := Forall (λ c, is_space c = true) w.

(** The separator of a range: what the bracket of [P_range] holds. *)
Definition is_dash (c : char) : Prop := c ∈ [0x2D; 0xE2; 0x20AC; 0x201C].

Fixpoint grp_free (r : regex) : bool :=
  match r with
  | Grp _ _ => false
  | Seq r1 r2 => grp_free r1 && grp_free r2
  | _ => true
  end.

(** ** The extractor and the filter as the specification reads them *)

(** The number a group holds. *)
Definition num (m : groups) (i : nat) : Z := digits_value (default [] (m !! i)).

(** The specification's reading of the extractor: (pattern,
    interpretation) pairs in precedence order. *)
Definition experience_patterns
    : list (regex * (groups → option Z * option Z)) :=
  [ (P_range,   λ m, (Some (num m 1), Some (num m 2)));
    (P_plus,    λ m, (Some (num m 1), None));
    (P_minimum, λ m, (Some (num m 1), None));
    (P_bare,    λ m, (Some (num m 1), Some (num m 1))) ].

(** The first pattern of the table that matches decides. *)
Fixpoint first_match (ps : list (regex * (groups → option Z * option Z)))
    (t : str) : option Z * option Z :=
  match ps with
  | [] => (None, None)
  | (p, f) :: ps' =>
      match re_search p t with
      | Some m => f m
      | None => first_match ps' t
      end
  end.

Definition extractExperience (text : option str) : option Z * option Z :=
  if truthy text
  then first_match experience_patterns (lower (or_empty text))
  else (None, None).

(** The specification's reading of the filter. *)
Definition isRelevant (text : str) : bool :=
  text_contains_keywords (Some text) KEYWORDS.

Definition matchesRange (range : option Z * option Z) : bool :=
  experience_matches range.1 range.2.

Definition qualifies (j : job) : bool :=
  let blob :=
    normalize_text
      (Some (or_empty (title j) ++ str_of " " ++ or_empty (company j)
             ++ str_of " " ++ or_empty (location j) ++ str_of " "
             ++ or_empty (snippet j))) in
  isRelevant blob
  && matchesRange (extractExperience (Some blob))
  && location_matches
       (if truthy (location j) then location j else snippet j).

End Vocabulary.

(** ** The order of the aggregator's output *)

(** The record at position [i] of [jobs] has a key, and no record before
    it has the same key. *)
Definition first_occurrence (jobs : list job) (i : nat) : Prop :=
  ∃ j, jobs !! i = Some j ∧ job_key j ≠ []
       ∧ ∀ i' j', (i' < i)%nat → jobs !! i' = Some j' → job_key j' ≠ job_key j.

(** [out] is made of the records of [jobs] at the positions [ps]. *)
Definition picked (jobs : list job) (ps : list nat) (out : list job) : Prop :=
  Forall2 (λ i j, jobs !! i = Some j) ps out.

(** [ps] lists the positions of the first occurrences in [jobs], in
    increasing order. *)
Definition first_positions (jobs : list job) (ps : list nat) : Prop :=
  StronglySorted lt ps ∧ ∀ i, i ∈ ps ↔ first_occurrence jobs i.

(** A text "<N>-<M> years". *)
Definition range_text (n m : N) : str :=
  numeral_of n ++ str_of "-" ++ numeral_of m ++ str_of " years".

(** [numeral_of n] is one or two ASCII digits that write [n]. *)
Definition small_numeral (n : N) : bool :=
  let d := numeral_of n in
  forallb (λ c, (0x30 <=? c) && (c <=? 0x39)) d
  && (1 <=? length d)%nat && (length d <=? 2)%nat
  && (foldl (λ acc c, 10 * acc + default 0 (ascii_decimal c))%Z 0%Z d
      =? Z.of_N n)%Z.

(** The two databases know the same decimal digits among [s]. *)
Definition same_digits (U1 U2 : UCD) (s : str) : Prop :=
  Forall (λ c, @decimal U1 c = @decimal U2 c) s.

(** ** Runs *)

(** A program that returns from every state. *)
Definition total {S A} (m : prog S A) : Prop :=
  ∀ s, ∃ a s', m s = (Ok a, s').

(** The world after the handler of an adapter has printed [line];
    [took] tells whether the pause after the request was taken. *)
Definition logged (w : world) (took : bool) (line : str) : world :=
  World (stdout w ++ [line]) (files w) (outbox w)
    (if took then S (pauses w) else pauses w).

(** The world once [line] is printed. *)
Definition printed (w : world) (line : str) : world :=
  World (stdout w ++ [line]) (files w) (outbox w) (pauses w).

(** The world once [text] is written to the file [name]. *)
Definition written (w : world) (name : string) (text : str) : world :=
  World (stdout w) (<[name := text]> (files w)) (outbox w) (pauses w).

Section Failures.

Context {W : web}.

(** An invocation fails: the request, the parser or the selector raises
    an [Exception] of class [cls] with message [msg]. *)
Definition fails (url : str) (params : option str) (selector : string)
    (cls : string) (msg : str) : Prop :=
  http_get url params = Raise (Exception cls msg)
  ∨ ∃ r, http_get url params = Ok r
         ∧ (parse_html r = Raise (Exception cls msg)
            ∨ ∃ sp, parse_html r = Ok sp
                    ∧ select sp selector = Raise (Exception cls msg)).

(** Whatever the web raises is an [Exception]. *)
Definition catchable (e : exn) : Prop :=
  match e with Exception _ _ => True | BaseException _ _ => False end.

Definition web_catchable : Prop :=
  (∀ url params e, http_get url params = Raise e → catchable e)
  ∧ (∀ r e, parse_html r = Raise e → catchable e)
  ∧ (∀ sp selector e, select sp selector = Raise e → catchable e).

End Failures.

(** ** A database, a web, a host and a world to run the program in *)

(** An instance of the interface: the database on Latin-1 (U+0000 to
    U+00FF), where it is small enough to write out; code points above
    are left as they are.  It runs the program on ASCII texts, on which
    every instance gives the same results
    ([parse_experience_text_ascii]). *)
Definition latin1_lower (c : char) : char :=
  if ((0x41 <=? c) && (c <=? 0x5A))
     || ((0xC0 <=? c) && (c <=? 0xDE) && negb (c =? 0xD7))
  then c + 32 else c.

Lemma latin1_lower_ascii s :
  Forall (λ c, c < 128) s → latin1_lower <$> s = ascii_lower <$> s.
Proof.
  induction 1 as [|c s Hc _ IH]; [done|]. cbn [fmap list_fmap]. f_equal; [|done].
  unfold latin1_lower, ascii_lower.
  destruct (0xC0 <=? c) eqn:E; [apply N.leb_le in E; lia|].
  by rewrite orb_false_r.
Qed.

Lemma ascii_decimal_ge c : 0x3A ≤ c → ascii_decimal c = None.
Proof.
  intros Hc. unfold ascii_decimal.
  destruct (c <=? 0x39) eqn:E; [apply N.leb_le in E; lia|].
  by rewrite andb_false_r.
Qed.

Lemma is_space_not_ascii_digit c : is_space c = true → ascii_decimal c = None.
Proof.
  intros Hc. unfold ascii_decimal.
  destruct (_ && _) eqn:E; [|done].
  apply andb_true_iff in E as [?%N.leb_le ?%N.leb_le].
  assert (c = 0x30 ∨ c = 0x31 ∨ c = 0x32 ∨ c = 0x33 ∨ c = 0x34 ∨ c = 0x35
          ∨ c = 0x36 ∨ c = 0x37 ∨ c = 0x38 ∨ c = 0x39) as Hd by lia.
  repeat destruct Hd as [->|Hd]; try subst c; discriminate.
Qed.

Program Definition latin1 : UCD := {|
  lower s := latin1_lower <$> s;
  decimal := ascii_decimal;
|}.
Next Obligation. apply latin1_lower_ascii. Qed.
Next Obligation. done. Qed.
Next Obligation. apply is_space_not_ascii_digit. Qed.
Next Obligation. intros c ? _. apply ascii_decimal_ge. lia. Qed.

(** A web that cannot be reached. *)
Definition offline : web := {|
  soup := ();
  tag := ();
  http_get _ _ := Raise (Exception "ConnectionError" (str_of "unreachable"));
  parse_html _ := Ok ();
  select _ _ := Ok [];
  attr _ _ := None;
  get_text _ := [];
  find_parent _ _ := None;
|}.

Definition fresh : world := World [] ∅ [] 0.

(** A host without credentials. *)
Definition no_credentials : host := {|
  environ _ := None;
  utcnow _ := str_of "2024-01-01";
  smtp_connect := Ok ();
  smtp_ehlo := Ok ();
  smtp_starttls := Ok ();
  smtp_login _ _ := Ok ();
  smtp_sendmail _ _ _ _ := Ok ();
  smtp_quit := Ok ();
  fs_open _ := Ok ();
  fs_write _ _ := Ok ();
  fs_torn _ _ := [];
|}.

(** The same host, in a directory it may not write to. *)
Definition locked : host := {|
  environ _ := None;
  utcnow _ := str_of "2024-01-01";
  smtp_connect := Ok ();
  smtp_ehlo := Ok ();
  smtp_starttls := Ok ();
  smtp_login _ _ := Ok ();
  smtp_sendmail _ _ _ _ := Ok ();
  smtp_quit := Ok ();
  fs_open _ := Raise (Exception "PermissionError" (str_of "[Errno 13] Permission denied"));
  fs_write _ _ := Ok ();
  fs_torn _ _ := [];
|}.

(** * Part III: proofs *)

(** ** Whitespace normalisation *)

Section Normalize.

Lemma split_acc_word_prefix w v t :
  Forall (λ c, is_space c = false) v →
  split_acc w (v ++ t) = split_acc (w ++ v) t.
Proof.
  intros Hv. revert w. induction Hv as [|c v Hc _ IH]; intros w; simpl.
  - by rewrite app_nil_r.
  - rewrite Hc, IH. by rewrite <- app_assoc.
Qed.

Lemma split_acc_words w t :
  Forall (λ c, is_space c = false) w →
  Forall word (split_acc w t).
Proof.
  revert w. induction t as [|c t IH]; intros w Hw; simpl.
  - destruct w; [constructor|]. constructor; [by split|constructor].
  - destruct (is_space c) eqn:Hc.
    + destruct w as [|a w].
      * by apply IH.
      * constructor; [by split|]. by apply IH.
    + apply IH. apply Forall_app. split; [done|]. by repeat constructor.
Qed.

Lemma split_words t : Forall word (split t).
Proof. by apply split_acc_words. Qed.

Lemma join_cons sep w w' l :
  join sep (w :: w' :: l) = w ++ sep ++ join sep (w' :: l).
Proof. done. Qed.

Lemma split_acc_space w t :
  w ≠ [] → split_acc w (32 :: t) = w :: split_acc [] t.
Proof. by destruct w. Qed.

Lemma split_join l :
  Forall word l → split (join (str_of " ") l) = l.
Proof.
  unfold split. induction 1 as [|w l [Hne Hw] Hl IH]; [done|].
  destruct l as [|w' l].
  - rewrite <- (app_nil_r (join _ _)).
    change (join (str_of " ") [w]) with w.
    rewrite split_acc_word_prefix by done. by destruct w.
  - rewrite join_cons, split_acc_word_prefix by done.
    change (str_of " " ++ ?t) with (32 :: t).
    rewrite split_acc_space by done. by rewrite IH.
Qed.

End Normalize.

(** C8. The whitespace normaliser is idempotent, and it sends [None] and
    the empty string to the empty string. *)
Theorem normalize_text_idempotent :
  (∀ t : option str,
      normalize_text (Some (normalize_text t)) = normalize_text t)
  ∧ normalize_text None = []
  ∧ normalize_text (Some []) = [].
Proof.
  split; [|done].
  intros t. unfold normalize_text at 2 3.
  destruct (truthy t); [|done].
  set (l := split (or_empty t)).
  assert (Hl : Forall word l) by apply split_words.
  unfold normalize_text.
  destruct (join (str_of " ") l) as [|c r] eqn:E.
  - done.
  - unfold truthy, or_empty.
    rewrite <- E. by rewrite split_join.
Qed.

(** ** Greedy repetition *)

Section Rep.

Context {A : Type} (p : char → bool) (k : str → option A).

Lemma rep_sound lo hi s r :
  rep p lo hi k s = Some r →
  ∃ m s', s = m ++ s' ∧ Forall (λ c, p c = true) m
          ∧ (lo ≤ length m)%nat ∧ within hi (length m) ∧ k s' = Some r.
Proof.
  revert lo hi. induction s as [|c s IH]; intros lo hi; cbn [rep].
  - destruct lo; [|done]. intros Hk. exists [], [].
    split_and!; [done|constructor|simpl; lia|by destruct hi; simpl; lia|done].
  - assert (Hstop : match lo with O => k (c :: s) | S _ => None end = Some r →
              ∃ m s', c :: s = m ++ s' ∧ Forall (λ c, p c = true) m
                ∧ (lo ≤ length m)%nat ∧ within hi (length m) ∧ k s' = Some r).
    { destruct lo; [|done]. intros Hk. exists [], (c :: s).
      split_and!; [done|constructor|simpl; lia|by destruct hi; simpl; lia|done]. }
    destruct (p c && room hi) eqn:Hc; [|done].
    apply andb_true_iff in Hc as [Hc Hroom].
    destruct (rep p (pred lo) (pred <$> hi) k s) as [r'|] eqn:Hrep; [|done].
    intros [= ->]. apply IH in Hrep as (m & s' & -> & Hm & Hlo & Hhi & Hk).
    exists (c :: m), s'. split_and!; [done|by constructor|simpl; lia| |done].
    destruct hi as [[|h]|]; simpl in *; [done|lia|done].
Qed.

Lemma rep_complete lo hi m s' :
  Forall (λ c, p c = true) m → (lo ≤ length m)%nat → within hi (length m) →
  is_Some (k s') → is_Some (rep p lo hi k (m ++ s')).
Proof.
  intros Hm. revert lo hi.
  induction Hm as [|c m Hc _ IH]; intros lo hi Hlo Hhi Hk.
  - destruct lo; [|simpl in Hlo; lia]. simpl.
    destruct s' as [|c s']; cbn [rep]; [done|].
    destruct (p c && room hi); [|done].
    by destruct (rep p _ _ k s').
  - cbn [app rep]. rewrite Hc.
    assert (room hi = true) as -> by (by destruct hi as [[|h]|]; simpl in *; [lia|..]).
    destruct (IH (pred lo) (pred <$> hi)) as [r ->]; [simpl in *; lia| |done|done].
    destruct hi as [h|]; simpl in *; [lia|done].
Qed.

(** The greedy choice is the match when the continuation accepts it. *)
Lemma rep_greedy lo hi m s' r :
  Forall (λ c, p c = true) m → (lo ≤ length m)%nat → within hi (length m) →
  hi = Some (length m) ∨ stops p s' →
  k s' = Some r → rep p lo hi k (m ++ s') = Some r.
Proof.
  intros Hm. revert lo hi.
  induction Hm as [|c m Hc _ IH]; intros lo hi Hlo Hhi Hend Hk.
  - destruct lo; [|simpl in Hlo; lia]. simpl.
    destruct s' as [|c s']; cbn [rep]; [done|].
    destruct Hend as [->|Hc]; simpl in *; [by rewrite andb_false_r|].
    by rewrite Hc.
  - cbn [app rep]. rewrite Hc.
    assert (room hi = true) as -> by (by destruct hi as [[|h]|]; simpl in *; [lia|..]).
    rewrite (IH (pred lo) (pred <$> hi)); [done|simpl in *; lia|..|done].
    + destruct hi as [h|]; simpl in *; [lia|done].
    + destruct Hend as [->|?]; [by left|by right].
Qed.

(** A repetition that needs a character fails where none of its class
    comes next. *)
Lemma rep_stops lo hi s :
  (0 < lo)%nat → stops p s → rep p lo hi k s = None.
Proof.
  intros Hlo Hs. destruct lo; [lia|].
  destruct s as [|c s]; cbn [rep]; [done|].
  simpl in Hs. by rewrite Hs.
Qed.

End Rep.

(** A repetition only looks at the text it is given. *)
Lemma rep_ext {A} (p p' : char → bool) lo hi (k k' : str → option A) s :
  Forall (λ c, p c = p' c) s →
  (∀ s', s' `suffix_of` s → k s' = k' s') →
  rep p lo hi k s = rep p' lo hi k' s.
Proof.
  intros Hs. revert lo hi. induction Hs as [|c s Hc _ IH]; intros lo hi Hk.
  - cbn [rep]. by rewrite Hk.
  - cbn [rep]. rewrite <- Hc, (Hk (c :: s)) by done.
    rewrite (IH (pred lo) (pred <$> hi)); [done|].
    intros s' Hs'. apply Hk. by apply suffix_cons_r.
Qed.

(** ** The matcher is sound and complete for the patterns' languages *)

Section Matches.

Context {U : UCD}.

Lemma take_matched (m s' : str) :
  take (length (m ++ s') - length s') (m ++ s') = m.
Proof.
  rewrite length_app.
  replace (length m + length s' - length s')%nat with (length m) by lia.
  by rewrite take_app_length.
Qed.

Lemma rmatch_sound r s g k res :
  rmatch r s g k = Some res →
  ∃ m s' g', s = m ++ s' ∧ matches r m g g' ∧ k s' g' = Some res.
Proof.
  revert s g k. induction r as [|a|a lo hi|i r IH|r1 IH1 r2 IH2];
    intros s g k; cbn [rmatch].
  - intros Hk. exists [], s, g. split_and!; [done|constructor|done].
  - destruct s as [|c s]; [done|]. destruct (in_cls a c) eqn:Hc; [|done].
    intros Hk. exists [c], s, g. split_and!; [done|by constructor|done].
  - intros (m & s' & -> & Hm & Hlo & Hhi & Hk)%rep_sound.
    exists m, s', g. split_and!; [done|by constructor|done].
  - intros (m & s' & g' & -> & Hm & Hk)%IH.
    rewrite take_matched in Hk.
    exists m, s', (<[i := m]> g'). split_and!; [done|by constructor|done].
  - intros (m1 & s1 & g1 & -> & Hm1 & (m2 & s2 & g2 & -> & Hm2 & Hk)%IH2)%IH1.
    exists (m1 ++ m2), s2, g2. rewrite <- app_assoc.
    split_and!; [done|by econstructor|done].
Qed.

Lemma rmatch_complete r m g g' :
  matches r m g g' →
  ∀ s' k, is_Some (k s' g') → is_Some (rmatch r (m ++ s') g k).
Proof.
  induction 1 as [g|a c g Hc|a lo hi m g Hm Hlo Hhi|i r m g g' _ IH
                 |r1 r2 m1 m2 g g' g'' _ IH1 _ IH2]; intros s' k Hk; cbn [rmatch].
  - done.
  - simpl. by rewrite Hc.
  - by apply rep_complete.
  - apply IH. by rewrite take_matched.
  - rewrite <- app_assoc. apply IH1, IH2, Hk.
Qed.

Lemma re_search_sound r s g :
  re_search r s = Some g →
  ∃ pre m post, s = pre ++ m ++ post ∧ matches r m ∅ g.
Proof.
  induction s as [|c s IH]; cbn [re_search].
  - destruct (rmatch r [] ∅ _) as [g'|] eqn:Hr; [|done]. intros [= ->].
    apply rmatch_sound in Hr as (m & s' & g' & -> & Hm & [= ->]).
    by exists [], m, s'.
  - destruct (rmatch r (c :: s) ∅ _) as [g'|] eqn:Hr.
    + intros [= ->].
      apply rmatch_sound in Hr as (m & s' & g' & Hs & Hm & [= ->]). rewrite Hs.
      by exists [], m, s'.
    + intros (pre & m & post & -> & Hm)%IH. exists (c :: pre), m, post. done.
Qed.

Lemma re_search_complete r s : occurs r s → is_Some (re_search r s).
Proof.
  intros (pre & m & post & g & -> & Hm).
  assert (Hhere : is_Some (rmatch r (m ++ post) ∅ (λ _ g, Some g)))
    by (by eapply rmatch_complete).
  induction pre as [|c pre IH].
  - destruct Hhere as [g' Hg']. cbn [app].
    revert Hg'. generalize (m ++ post). intros [|c s] Hg'; cbn [re_search]; by rewrite Hg'.
  - cbn [app re_search]. by destruct (rmatch r (c :: _) ∅ _).
Qed.

(** [re.search] finds a match exactly when the pattern occurs. *)
Lemma re_search_occurs r s : is_Some (re_search r s) ↔ occurs r s.
Proof.
  split; [|apply re_search_complete].
  intros [g (pre & m & post & -> & Hm)%re_search_sound].
  by exists pre, m, post, g.
Qed.

End Matches.

(** ** What the four patterns capture *)

Section Captures.

Context {U : UCD}.

Lemma py_int_numeral d : numeral d → py_int (Some d) = Ok (digits_value d).
Proof.
  intros [Hlen Hd]. unfold py_int.
  rewrite bool_decide_true by (intros ->; simpl in Hlen; lia).
  assert (forallb is_digit d = true) as ->; [|done].
  clear Hlen. induction Hd as [|c d Hc _ IH]; [done|]. simpl. by rewrite Hc.
Qed.

Lemma matches_grp_free r m g g' : matches r m g g' → grp_free r = true → g' = g.
Proof.
  induction 1 as [| | | |r1 r2 m1 m2 g g' g'' _ IH1 _ IH2]; simpl; try done.
  intros [H1 H2]%andb_true_iff. rewrite IH2, IH1; done.
Qed.

Lemma matches_seq_inv r1 r2 m g g'' :
  matches (Seq r1 r2) m g g'' →
  ∃ m1 m2 g', m = m1 ++ m2 ∧ matches r1 m1 g g' ∧ matches r2 m2 g' g''.
Proof. inversion 1; subst. eauto 10. Qed.

Lemma matches_capture_inv i m g g' :
  matches (Grp i (Rep CDigit 1 (Some 2%nat))) m g g' →
  numeral m ∧ g' = <[i := m]> g.
Proof.
  inversion 1 as [| | |? ? ? ? ? Hr|]; subst.
  inversion Hr; subst. by repeat split.
Qed.

(** A pattern that opens with its only group. *)
Lemma capture_first r m g :
  grp_free r = true →
  matches (Seq (Grp 1 (Rep CDigit 1 (Some 2%nat))) r) m ∅ g →
  ∃ d, numeral d ∧ g = {[ 1%nat := d ]}.
Proof.
  intros Hr (d & m2 & g' & -> & [Hd ->]%matches_capture_inv & H2)%matches_seq_inv.
  apply matches_grp_free in H2 as ->; [|done]. by exists d.
Qed.

Lemma P_range_captures t g :
  re_search P_range t = Some g →
  ∃ d1 d2, numeral d1 ∧ numeral d2 ∧ g = <[2%nat := d2]> {[ 1%nat := d1 ]}.
Proof.
  intros (pre & m & post & -> & Hm)%re_search_sound.
  apply matches_seq_inv in Hm
    as (d1 & ? & ? & -> & [Hd1 ->]%matches_capture_inv & Hm).
  apply matches_seq_inv in Hm as (? & ? & ? & -> & ->%matches_grp_free & Hm); [|done].
  apply matches_seq_inv in Hm as (? & ? & ? & -> & ->%matches_grp_free & Hm); [|done].
  apply matches_seq_inv in Hm as (? & ? & ? & -> & ->%matches_grp_free & Hm); [|done].
  apply matches_seq_inv in Hm
    as (d2 & ? & ? & -> & [Hd2 ->]%matches_capture_inv & Hm).
  apply matches_grp_free in Hm as ->; [|done].
  by exists d1, d2.
Qed.

Lemma P_plus_captures t g :
  re_search P_plus t = Some g → ∃ d, numeral d ∧ g = {[ 1%nat := d ]}.
Proof.
  intros (pre & m & post & -> & Hm)%re_search_sound.
  by apply capture_first in Hm.
Qed.

Lemma P_bare_captures t g :
  re_search P_bare t = Some g → ∃ d, numeral d ∧ g = {[ 1%nat := d ]}.
Proof.
  intros (pre & m & post & -> & Hm)%re_search_sound.
  by apply capture_first in Hm.
Qed.

Lemma P_minimum_captures t g :
  re_search P_minimum t = Some g → ∃ d, numeral d ∧ g = {[ 1%nat := d ]}.
Proof.
  intros (pre & m & post & -> & Hm)%re_search_sound.
  apply matches_seq_inv in Hm as (? & ? & ? & -> & ->%matches_grp_free & Hm); [|done].
  apply matches_seq_inv in Hm as (? & ? & ? & -> & ->%matches_grp_free & Hm); [|done].
  apply matches_seq_inv in Hm as (? & ? & ? & -> & ->%matches_grp_free & Hm); [|done].
  apply matches_seq_inv in Hm as (? & ? & ? & -> & ->%matches_grp_free & Hm); [|done].
  apply matches_seq_inv in Hm
    as (d & ? & ? & -> & [Hd ->]%matches_capture_inv & Hm).
  apply matches_grp_free in Hm as ->; [|done].
  by exists d.
Qed.

End Captures.

(** ** The extractor is its pattern table *)

Section Extract.

Context {U : UCD}.

Lemma range_group_1 (d1 d2 : str) :
  (<[2%nat := d2]> {[ 1%nat := d1 ]} : groups) !! 1%nat = Some d1.
Proof. rewrite lookup_insert_ne by done. apply lookup_singleton_eq. Qed.

Lemma range_group_2 (d1 d2 : str) :
  (<[2%nat := d2]> {[ 1%nat := d1 ]} : groups) !! 2%nat = Some d2.
Proof. apply lookup_insert_eq. Qed.

Lemma parse_experience_text_table text :
  parse_experience_text text = Ok (extractExperience text).
Proof.
  unfold parse_experience_text, extractExperience.
  destruct (truthy text); [|done]. cbn [negb first_match experience_patterns].
  destruct (re_search P_range _) as [g|] eqn:H1.
  { apply P_range_captures in H1 as (d1 & d2 & Hd1 & Hd2 & ->).
    unfold group, num. rewrite range_group_1, range_group_2. cbn [default].
    by rewrite !py_int_numeral. }
  destruct (re_search P_plus _) as [g|] eqn:H2.
  { apply P_plus_captures in H2 as (d & Hd & ->).
    unfold group, num. rewrite lookup_singleton_eq. cbn [default].
    by rewrite !py_int_numeral. }
  destruct (re_search P_minimum _) as [g|] eqn:H3.
  { apply P_minimum_captures in H3 as (d & Hd & ->).
    unfold group, num. rewrite lookup_singleton_eq. cbn [default].
    by rewrite !py_int_numeral. }
  destruct (re_search P_bare _) as [g|] eqn:H4; [|done].
  apply P_bare_captures in H4 as (d & Hd & ->).
  unfold group, num. rewrite lookup_singleton_eq. cbn [default].
  by rewrite !py_int_numeral.
Qed.

(** Stepping the matcher through a pattern. *)
Lemma rmatch_cons r rs s g k :
  rmatch (seq_of (r :: rs)) s g k
  = rmatch r s g (λ s' g', rmatch (seq_of rs) s' g' k).
Proof. done. Qed.

Lemma rmatch_chr a c s g k :
  in_cls a c = true → rmatch (Chr a) (c :: s) g k = k s g.
Proof. intros Hc. simpl. by rewrite Hc. Qed.

Lemma rmatch_chars (l : str) s g k :
  rmatch (seq_of ((λ c, Chr (CSet [c])) <$> l)) (l ++ s) g k = k s g.
Proof.
  induction l as [|c l IH]; [done|].
  cbn [fmap list_fmap app]. rewrite rmatch_cons, rmatch_chr, IH; [done|].
  simpl. apply bool_decide_eq_true. set_solver.
Qed.

Lemma rmatch_lit x s g k : rmatch (lit x) (str_of x ++ s) g k = k s g.
Proof. apply rmatch_chars. Qed.

Lemma rmatch_rep_greedy a lo hi m s' g k res :
  Forall (λ c, in_cls a c = true) m → (lo ≤ length m)%nat →
  within hi (length m) → hi = Some (length m) ∨ stops (in_cls a) s' →
  k s' g = Some res →
  rmatch (Rep a lo hi) (m ++ s') g k = Some res.
Proof. intros. cbn [rmatch]. by apply rep_greedy. Qed.

Lemma rmatch_capture_greedy i d s' g k res :
  numeral d → stops is_digit s' ∨ length d = 2%nat →
  k s' (<[i := d]> g) = Some res →
  rmatch (Grp i (Rep CDigit 1 (Some 2%nat))) (d ++ s') g k = Some res.
Proof.
  intros [Hlen Hd] Hend Hk. cbn [rmatch].
  apply rep_greedy; [done|lia|simpl; lia| |by rewrite take_matched].
  destruct Hend as [?| ->]; [by right|by left].
Qed.

(** The pattern cannot start at a character that is not a digit. *)
Lemma rmatch_capture_stops r s g k :
  stops is_digit s →
  rmatch (seq_of (Grp 1 (Rep CDigit 1 (Some 2%nat)) :: r)) s g k = None.
Proof.
  intros Hs. rewrite rmatch_cons. cbn [rmatch]. apply rep_stops; [lia|done].
Qed.

Lemma rep_optional {A} p hi (k : str → option A) s r :
  (∀ s', k s' = Some r) → rep p 0 hi k s = Some r.
Proof.
  intros Hk. revert hi. induction s as [|c s IH]; intros hi; cbn [rep]; [done|].
  destruct (p c && room hi); [|done]. by rewrite IH.
Qed.

End Extract.

(** ** Texts of the shape "N - M years" *)

Section RangeShape.

Context {U : UCD}.

Lemma is_digit_false c : decimal c = None → is_digit c = false.
Proof.
  intros Hc. apply bool_decide_eq_false. rewrite Hc. by intros [? ?].
Qed.

Lemma space_not_digit c : is_space c = true → is_digit c = false.
Proof. intros Hc. by apply is_digit_false, decimal_space. Qed.

Lemma digit_not_space c : is_digit c = true → is_space c = false.
Proof.
  intros Hc. destruct (is_space c) eqn:E; [|done].
  apply space_not_digit in E. congruence.
Qed.

Lemma dash_not_digit c : is_dash c → is_digit c = false.
Proof.
  unfold is_dash. rewrite !elem_of_cons, elem_of_nil.
  intros [->|[->|[->|[->|[]]]]]; apply is_digit_false;
    first [by rewrite decimal_latin1 | by apply decimal_punct].
Qed.

Lemma dash_not_space c : is_dash c → is_space c = false.
Proof.
  unfold is_dash. rewrite !elem_of_cons, elem_of_nil.
  by intros [->|[->|[->|[->|[]]]]].
Qed.

Lemma letter_y_not_digit : is_digit 0x79 = false.
Proof. apply is_digit_false. by rewrite decimal_latin1. Qed.

Lemma stops_after_spaces p w c s :
  spaces w → (∀ x, is_space x = true → p x = false) → p c = false →
  stops p (w ++ c :: s).
Proof. intros [|x w' Hx _] Hp Hc; simpl; auto. Qed.

Lemma stops_numeral d s : numeral d → stops is_space (d ++ s).
Proof.
  intros [Hlen Hd]. destruct d as [|c d]; [simpl in Hlen; lia|].
  apply Forall_cons in Hd as [Hc _]. simpl. by apply digit_not_space.
Qed.

Lemma re_search_here r s g :
  rmatch r s ∅ (λ _ g, Some g) = Some g → re_search r s = Some g.
Proof. intros H. destruct s; cbn [re_search]; by rewrite H. Qed.

Lemma re_search_skip r pre s :
  Forall (λ c, is_digit c = false) pre →
  re_search (seq_of (Grp 1 (Rep CDigit 1 (Some 2%nat)) :: r)) (pre ++ s)
  = re_search (seq_of (Grp 1 (Rep CDigit 1 (Some 2%nat)) :: r)) s.
Proof.
  induction 1 as [|c pre Hc _ IH]; [done|].
  cbn [app re_search]. by rewrite rmatch_capture_stops.
Qed.

(** The tail [\s*years?] of every pattern, at the end of a match. *)
Lemma rmatch_years w post g :
  spaces w →
  rmatch (seq_of [Rep CSpace 0 None; lit "year"; Rep (CSet [0x73]) 0 (Some 1%nat)])
    (w ++ str_of "year" ++ post) g (λ _ g, Some g) = Some g.
Proof.
  intros Hw. rewrite rmatch_cons.
  apply rmatch_rep_greedy; [done|lia|done|by right|].
  rewrite rmatch_cons, rmatch_lit, rmatch_cons. cbn [rmatch].
  by apply rep_optional.
Qed.

Lemma stops_years p w post :
  spaces w → (∀ x, is_space x = true → p x = false) → p 0x79 = false →
  stops p (w ++ str_of "year" ++ post).
Proof. intros. by apply (stops_after_spaces p w 0x79). Qed.

Lemma P_range_shape pre d1 w1 c w2 d2 w3 post :
  Forall (λ c, is_digit c = false) pre →
  numeral d1 → spaces w1 → is_dash c → spaces w2 → numeral d2 → spaces w3 →
  re_search P_range
    (pre ++ d1 ++ w1 ++ c :: w2 ++ d2 ++ w3 ++ str_of "year" ++ post)
  = Some (<[2%nat := d2]> {[ 1%nat := d1 ]}).
Proof.
  intros Hpre Hd1 Hw1 Hc Hw2 Hd2 Hw3. unfold P_range.
  rewrite re_search_skip by done. apply re_search_here.
  rewrite rmatch_cons. apply rmatch_capture_greedy; [done| |].
  { left. apply stops_after_spaces;
      [done|apply space_not_digit|by apply dash_not_digit]. }
  rewrite rmatch_cons. apply rmatch_rep_greedy; [done|lia|done| |].
  { right. simpl. by apply dash_not_space. }
  rewrite rmatch_cons, rmatch_chr by (by apply bool_decide_eq_true).
  rewrite rmatch_cons. apply rmatch_rep_greedy; [done|lia|done| |].
  { right. by apply stops_numeral. }
  rewrite rmatch_cons. apply rmatch_capture_greedy; [done| |].
  { left. apply stops_years;
      [done|apply space_not_digit|apply letter_y_not_digit]. }
  rewrite insert_empty. by apply rmatch_years.
Qed.

End RangeShape.

(** ** First match wins *)

Section FirstMatch.

Context {U : UCD}.

Lemma first_match_none ps t :
  Forall (λ q, ¬ occurs q.1 t) ps → first_match ps t = (None, None).
Proof.
  induction 1 as [|[p f] ps Hp _ IH]; [done|]. cbn [first_match].
  destruct (re_search p t) as [g|] eqn:Hs; [|done].
  destruct Hp. apply re_search_occurs. by exists g.
Qed.

Lemma first_match_decides ps1 p f ps2 t :
  Forall (λ q, ¬ occurs q.1 t) ps1 → occurs p t →
  ∃ g, captured p t g ∧ first_match (ps1 ++ (p, f) :: ps2) t = f g.
Proof.
  intros Hps Hp. induction Hps as [|[q h] ps1 Hq _ IH]; cbn [app first_match].
  - apply re_search_occurs in Hp as [g Hg]. rewrite Hg.
    exists g. split; [|done]. by apply re_search_sound.
  - destruct (re_search q t) as [g|] eqn:Hs; [|done].
    destruct Hq. apply re_search_occurs. by exists g.
Qed.

Lemma lower_nil : lower [] = [].
Proof. by rewrite lower_ascii. Qed.

Lemma truthy_lower text : lower text ≠ [] → truthy (Some text) = true.
Proof. destruct text; [|done]. by rewrite lower_nil. Qed.

Lemma parse_range_shape text pre d1 w1 c w2 d2 w3 post :
  lower text
    = pre ++ d1 ++ w1 ++ c :: w2 ++ d2 ++ w3 ++ str_of "year" ++ post →
  Forall (λ c, is_digit c = false) pre →
  numeral d1 → spaces w1 → is_dash c → spaces w2 → numeral d2 → spaces w3 →
  parse_experience_text (Some text)
  = Ok (Some (digits_value d1), Some (digits_value d2)).
Proof.
  intros Ht Hpre Hd1 Hw1 Hc Hw2 Hd2 Hw3.
  rewrite parse_experience_text_table. f_equal.
  unfold extractExperience. rewrite truthy_lower.
  - cbn [or_empty first_match experience_patterns].
    rewrite Ht, P_range_shape by done.
    unfold num. by rewrite range_group_1, range_group_2.
  - rewrite Ht. destruct Hd1 as [Hlen _]. destruct pre, d1; try done.
    simpl in Hlen. lia.
Qed.

Lemma first_match_min_first t mn mx :
  first_match experience_patterns t = (mn, mx) → mn = None → mx = None.
Proof.
  cbn [first_match experience_patterns].
  repeat (destruct (re_search _ t); [by intros [= <- <-]|]).
  by intros [= <- <-].
Qed.

Lemma extractExperience_min_first text mn mx :
  extractExperience text = (mn, mx) → mn = None → mx = None.
Proof.
  unfold extractExperience. destruct (truthy text).
  - apply first_match_min_first.
  - by intros [= <- <-].
Qed.

End FirstMatch.

(** ** Plain texts do not depend on the database

    On a text whose characters two databases read alike, the matcher,
    and so the extractor, give the same result under both. *)

Section Agreement.

Context (U1 U2 : UCD).

Local Abbreviation same_digits := (same_digits U1 U2).

Lemma in_cls_agree a c :
  @decimal U1 c = @decimal U2 c → @in_cls U1 a c = @in_cls U2 a c.
Proof. intros Hc. destruct a; [|done|done]. unfold in_cls, is_digit. by rewrite Hc. Qed.

Lemma same_digits_suffix s' s : s' `suffix_of` s → same_digits s → same_digits s'.
Proof. intros [pre ->] [_ ?]%Forall_app. done. Qed.

Lemma rmatch_agree r s g k k' :
  same_digits s →
  (∀ s' g', s' `suffix_of` s → k s' g' = k' s' g') →
  @rmatch U1 r s g k = @rmatch U2 r s g k'.
Proof.
  revert s g k k'. induction r as [|a|a lo hi|i r IH|r1 IH1 r2 IH2];
    intros s g k k' Hs Hk; cbn [rmatch].
  - by apply Hk.
  - destruct s as [|c s]; [done|]. apply Forall_cons in Hs as [Hc Hs].
    rewrite (in_cls_agree a c Hc). destruct (in_cls a c); [|done].
    apply Hk. by apply suffix_cons_r.
  - apply rep_ext.
    + eapply Forall_impl; [exact Hs|]. intros c Hc. by apply in_cls_agree.
    + intros s' Hs'. by apply Hk.
  - apply IH; [done|]. intros s' g' Hs'. by apply Hk.
  - apply IH1; [done|]. intros s' g' Hs'. apply IH2.
    + by eapply same_digits_suffix.
    + intros s'' g'' Hs''. apply Hk. by etrans.
Qed.

Lemma re_search_agree r s :
  same_digits s → @re_search U1 r s = @re_search U2 r s.
Proof.
  induction 1 as [|c s Hc Hs IH]; cbn [re_search].
  - rewrite (rmatch_agree r [] ∅ _ (λ _ g, Some g)); [done|constructor|done].
  - rewrite (rmatch_agree r (c :: s) ∅ _ (λ _ g, Some g)); [|by constructor|done].
    by rewrite IH.
Qed.

Lemma digits_value_agree d :
  same_digits d → @digits_value U1 d = @digits_value U2 d.
Proof.
  intros Hd. unfold digits_value.
  assert (∀ acc : Z,
    foldl (λ acc c, 10 * acc + default 0 (@decimal U1 c))%Z acc d
    = foldl (λ acc c, 10 * acc + default 0 (@decimal U2 c))%Z acc d) as H;
    [|apply H].
  induction Hd as [|c d Hc _ IH]; intros acc; [done|].
  cbn [foldl]. by rewrite Hc, IH.
Qed.

(** What a match captures is made of characters of the text. *)
Lemma matches_groups_in (P : char → Prop) r m g g' :
  @matches U1 r m g g' → Forall P m →
  (∀ i d, g !! i = Some d → Forall P d) →
  ∀ i d, g' !! i = Some d → Forall P d.
Proof.
  induction 1 as [| | |i r m g g' _ IH|r1 r2 m1 m2 g g' g'' _ IH1 _ IH2];
    intros Hm Hg; try done.
  - intros j d. destruct (decide (i = j)) as [->|Hne].
    + rewrite lookup_insert_eq. by intros [= <-].
    + rewrite lookup_insert_ne by done. by apply IH.
  - apply Forall_app in Hm as [Hm1 Hm2]. by apply IH2, IH1.
Qed.

Lemma re_search_groups_in (P : char → Prop) r s g :
  @re_search U1 r s = Some g → Forall P s →
  ∀ i d, g !! i = Some d → Forall P d.
Proof.
  intros (pre & m & post & -> & Hm)%re_search_sound Hs.
  apply Forall_app in Hs as [_ [Hs _]%Forall_app].
  eapply matches_groups_in; [done..|]. intros i d. by rewrite lookup_empty.
Qed.

Lemma py_int_agree d :
  same_digits d → @py_int U1 (Some d) = @py_int U2 (Some d).
Proof.
  intros Hd. unfold py_int. rewrite (digits_value_agree d Hd).
  assert (forallb (@is_digit U1) d = forallb (@is_digit U2) d) as ->; [|done].
  induction Hd as [|c d Hc _ IH]; [done|]. cbn [forallb].
  rewrite IH. f_equal. unfold is_digit. by rewrite Hc.
Qed.

Lemma parse_experience_text_agree text :
  @lower U1 text = @lower U2 text → same_digits (@lower U1 text) →
  @parse_experience_text U1 (Some text) = @parse_experience_text U2 (Some text).
Proof.
  intros Hlower Hsame. unfold parse_experience_text.
  destruct (truthy (Some text)); [|done]. cbn [negb or_empty].
  rewrite <- Hlower.
  assert (Hint : ∀ r g,
    @re_search U1 r (@lower U1 text) = Some g →
    ∀ i, @py_int U1 (group g i) = @py_int U2 (group g i)).
  { intros r g Hg i. unfold group. destruct (g !! i) as [d|] eqn:Hd; [|done].
    apply py_int_agree. by eapply re_search_groups_in. }
  rewrite <- !re_search_agree by done.
  repeat lazymatch goal with
  | |- context [match @re_search U1 ?r ?t with _ => _ end] =>
      let E := fresh "E" in
      destruct (@re_search U1 r t) as [g|] eqn:E;
        [by rewrite !(Hint _ _ E)|]
  end.
  done.
Qed.

End Agreement.

(** On an ASCII text every database agrees with [latin1]. *)
Lemma parse_experience_text_ascii (U : UCD) (text : str) :
  Forall (λ c, c < 128) text →
  @parse_experience_text U (Some text) = @parse_experience_text latin1 (Some text).
Proof.
  intros Hascii. apply parse_experience_text_agree.
  - rewrite lower_ascii by done. symmetry. by apply latin1_lower_ascii.
  - rewrite lower_ascii by done. apply Forall_fmap.
    eapply Forall_impl; [exact Hascii|]. intros c Hc. simpl in Hc.
    change (@decimal U (ascii_lower c) = ascii_decimal (ascii_lower c)).
    apply decimal_latin1. unfold ascii_lower.
    destruct (_ && _) eqn:E; [|lia].
    apply andb_true_iff in E as [_ ?%N.leb_le]. lia.
Qed.


(** ** Numerals below 100 *)

Lemma small_numerals : forallb small_numeral (N.of_nat <$> seq 0 100) = true.
Proof. by vm_compute. Qed.

Lemma small_numeral_lt n : n < 100 → small_numeral n = true.
Proof.
  intros Hn. pose proof small_numerals as H.
  rewrite forallb_forall in H. apply H.
  apply list_elem_of_In, list_elem_of_fmap. exists (N.to_nat n).
  split; [by rewrite N2Nat.id|]. apply list_elem_of_In, in_seq. lia.
Qed.

Section Small.

Context {U : UCD}.

Lemma numeral_of_small n :
  n < 100 →
  Forall (λ c, 0x30 ≤ c ∧ c ≤ 0x39) (numeral_of n)
  ∧ numeral (numeral_of n)
  ∧ digits_value (numeral_of n) = Z.of_N n.
Proof.
  intros Hn%small_numeral_lt. unfold small_numeral in Hn.
  apply andb_true_iff in Hn as [Hn Hv%Z.eqb_eq].
  apply andb_true_iff in Hn as [Hn H2%Nat.leb_le].
  apply andb_true_iff in Hn as [Hd H1%Nat.leb_le].
  assert (Hdigits : Forall (λ c, 0x30 ≤ c ∧ c ≤ 0x39) (numeral_of n)).
  { apply Forall_forall. intros c Hc%list_elem_of_In.
    rewrite forallb_forall in Hd. apply Hd in Hc.
    apply andb_true_iff in Hc as [?%N.leb_le ?%N.leb_le]. done. }
  split_and!; [done| |].
  - split; [lia|]. eapply Forall_impl; [exact Hdigits|]. intros c [H30 H39].
    unfold is_digit. rewrite decimal_latin1 by lia. unfold ascii_decimal.
    apply N.leb_le in H30, H39. by rewrite H30, H39.
  - rewrite (digits_value_agree U latin1); [done|].
    eapply Forall_impl; [exact Hdigits|]. intros c [? ?].
    apply decimal_latin1. lia.
Qed.

(** "<N>-<M> years" with N and M below 100 reads as (N, M). *)
Lemma parse_range_text_small n m :
  n < 100 → m < 100 →
  parse_experience_text (Some (range_text n m))
  = Ok (Some (Z.of_N n), Some (Z.of_N m)).
Proof.
  intros (Hn & Hdn & <-)%numeral_of_small (Hm & Hdm & <-)%numeral_of_small.
  assert (Hascii : Forall (λ c, 0x20 ≤ c ∧ c < 0x41 ∨ 0x61 ≤ c ∧ c < 128)
                     (range_text n m)).
  { unfold range_text. rewrite !Forall_app. split_and!.
    - eapply Forall_impl; [exact Hn|]. intros c [? ?]. left. lia.
    - change (str_of "-") with [45]. repeat (constructor; [lia|]). constructor.
    - eapply Forall_impl; [exact Hm|]. intros c [? ?]. left. lia.
    - change (str_of " years") with [32; 121; 101; 97; 114; 115].
      repeat (constructor; [lia|]). constructor. }
  assert (Hlower : lower (range_text n m) = range_text n m).
  { rewrite lower_ascii
      by (eapply Forall_impl; [exact Hascii|]; intros c Hc; cbv beta in *; lia).
    induction Hascii as [|c l Hc _ IH]; [done|].
    cbn [fmap list_fmap]. f_equal; [|done]. unfold ascii_lower.
    destruct ((0x41 <=? c) && (c <=? 0x5A)) eqn:E; [|done].
    apply andb_true_iff in E as [?%N.leb_le ?%N.leb_le]. lia. }
  apply (parse_range_shape _ [] (numeral_of n) [] 0x2D [] (numeral_of m)
           (str_of " ") (str_of "s")); try done.
  - constructor.
  - unfold is_dash. set_solver.
  - constructor.
  - by repeat constructor.
Qed.

End Small.

(** ** The claims on the extractor *)

Lemma range_text_ascii n m : Forall (λ c, c < 128) (range_text n m) →
  ∀ U : UCD,
    @parse_experience_text U (Some (range_text n m))
    = @parse_experience_text latin1 (Some (range_text n m)).
Proof. intros Hascii U. by apply parse_experience_text_ascii. Qed.

(** C1, the claim as first stated fails: "123-456 years" reads as
    "<N>-<M> years" with N = 123 and M = 456, and the extractor returns
    (56, 56), under every database: its patterns take numbers of one or
    two digits. *)
Lemma parse_experience_text_three_digits :
  ¬ (∀ (U : UCD) (n m : N), n ≤ m →
       parse_experience_text (Some (range_text n m))
       = Ok (Some (Z.of_N n), Some (Z.of_N m)))
  ∧ (∀ U : UCD,
       parse_experience_text (Some (range_text 123 456))
       = Ok (Some 56%Z, Some 56%Z)).
Proof.
  assert (Hrun : ∀ U : UCD,
    parse_experience_text (Some (range_text 123 456))
    = Ok (Some 56%Z, Some 56%Z)).
  { intros U. rewrite range_text_ascii; [by vm_compute|].
    vm_compute. repeat (constructor; [reflexivity|]). constructor. }
  split; [|done].
  intros H. specialize (H latin1 123 456 ltac:(lia)).
  rewrite Hrun in H. discriminate H.
Qed.

(** C9, the claim as first stated fails: "321-45 years" reads as
    "<N>-<M> years" with N = 321 > M = 45, and the extractor returns
    (21, 45), under every database: a pair whose minimum is below its
    maximum. *)
Lemma parse_experience_text_long_minimum :
  ¬ (∀ (U : UCD) (n m : N), m < n →
       parse_experience_text (Some (range_text n m))
       = Ok (Some (Z.of_N n), Some (Z.of_N m)))
  ∧ (∀ U : UCD,
       parse_experience_text (Some (range_text 321 45))
       = Ok (Some 21%Z, Some 45%Z)).
Proof.
  assert (Hrun : ∀ U : UCD,
    parse_experience_text (Some (range_text 321 45))
    = Ok (Some 21%Z, Some 45%Z)).
  { intros U. rewrite range_text_ascii; [by vm_compute|].
    vm_compute. repeat (constructor; [reflexivity|]). constructor. }
  split; [|done].
  intros H. specialize (H latin1 321 45 ltac:(lia)).
  rewrite Hrun in H. discriminate H.
Qed.

(** C1. The extractor lower-cases the text and lets the first of its four
    patterns that occurs in it decide, by what an occurrence captures:
    the range pattern gives (N, M), the "N+" and "minimum of N" patterns
    (N, None), the bare pattern (N, N); no text, or a text in which no
    pattern occurs, gives (None, None).  In particular a text that reads
    N, separator, M, "year", with N and M of one or two digits and no
    digit before N, gives (N, M); so does "<N>-<M> years" for N and M
    below 100. *)
Theorem parse_experience_text_first_match `{UCD} :
  (∀ text, truthy text = false → parse_experience_text text = Ok (None, None))
  ∧ (∀ text ps1 p f ps2,
        truthy text = true →
        experience_patterns = ps1 ++ (p, f) :: ps2 →
        Forall (λ q, ¬ occurs q.1 (lower (or_empty text))) ps1 →
        occurs p (lower (or_empty text)) →
        ∃ g, captured p (lower (or_empty text)) g
             ∧ parse_experience_text text = Ok (f g))
  ∧ (∀ text,
        Forall (λ q, ¬ occurs q.1 (lower (or_empty text))) experience_patterns →
        parse_experience_text text = Ok (None, None))
  ∧ (∀ text pre d1 w1 c w2 d2 w3 post,
        lower text
          = pre ++ d1 ++ w1 ++ c :: w2 ++ d2 ++ w3 ++ str_of "year" ++ post →
        Forall (λ c, is_digit c = false) pre →
        numeral d1 → spaces w1 → is_dash c → spaces w2 → numeral d2 →
        spaces w3 →
        parse_experience_text (Some text)
        = Ok (Some (digits_value d1), Some (digits_value d2)))
  ∧ (∀ n m : N,
        n < 100 → m < 100 →
        parse_experience_text (Some (range_text n m))
        = Ok (Some (Z.of_N n), Some (Z.of_N m))).
Proof.
  split_and!.
  - intros text Ht. rewrite parse_experience_text_table.
    unfold extractExperience. by rewrite Ht.
  - intros text ps1 p f ps2 Ht Hps Hnone Hp.
    rewrite parse_experience_text_table. unfold extractExperience.
    rewrite Ht, Hps.
    destruct (first_match_decides ps1 p f ps2 _ Hnone Hp) as (g & Hg & ->).
    by exists g.
  - intros text Hnone. rewrite parse_experience_text_table.
    unfold extractExperience. rewrite first_match_none by done.
    by destruct (truthy text).
  - apply @parse_range_shape.
  - apply @parse_range_text_small.
Qed.

(** The theorem at "Experience: 3 - 5 years of Kubernetes". *)
Lemma parse_experience_text_first_match_witness :
  parse_experience_text (U := latin1)
    (Some (str_of "Experience: 3 - 5 years of Kubernetes"))
  = Ok (Some 3%Z, Some 5%Z).
Proof.
  pose proof (@parse_experience_text_first_match latin1)
    as (_ & _ & _ & Hshape & _).
  apply (Hshape (str_of "Experience: 3 - 5 years of Kubernetes")
           (str_of "experience: ") (str_of "3") (str_of " ") 0x2D
           (str_of " ") (str_of "5") (str_of " ") (str_of "s of kubernetes")).
  - reflexivity.
  - repeat constructor.
  - split; [simpl; lia|]. repeat constructor.
  - repeat constructor.
  - unfold is_dash. set_solver.
  - repeat constructor.
  - split; [simpl; lia|]. repeat constructor.
  - repeat constructor.
Defined.

(** C9. The range pattern puts no order on its two numbers: a text that
    reads N, separator, M, "year", with N and M of one or two digits, no
    digit before N, and N > M, gives (N, M), and [experience_matches]
    judges that pair by its two-bound rule, not (M < 2 or N > 6); so it
    is for "<N>-<M> years" with 100 > N > M. *)
Theorem parse_experience_text_unordered `{UCD} :
  (∀ (text pre d1 w1 : str) (c : char) (w2 d2 w3 post : str),
      lower text
        = pre ++ d1 ++ w1 ++ c :: w2 ++ d2 ++ w3 ++ str_of "year" ++ post →
      Forall (λ c, is_digit c = false) pre →
      numeral d1 → spaces w1 → is_dash c → spaces w2 → numeral d2 →
      spaces w3 →
      (digits_value d2 < digits_value d1)%Z →
      parse_experience_text (Some text)
      = Ok (Some (digits_value d1), Some (digits_value d2))
      ∧ experience_matches_at (Some (digits_value d1)) (Some (digits_value d2))
        = (BothBounds,
           negb ((digits_value d2 <? 2) || (digits_value d1 >? 6))%Z))
  ∧ (∀ n m : N,
        m < n → n < 100 →
        parse_experience_text (Some (range_text n m))
        = Ok (Some (Z.of_N n), Some (Z.of_N m))
        ∧ experience_matches_at (Some (Z.of_N n)) (Some (Z.of_N m))
          = (BothBounds, negb ((Z.of_N m <? 2) || (Z.of_N n >? 6))%Z)).
Proof.
  split.
  - intros text pre d1 w1 c w2 d2 w3 post Ht Hpre Hd1 Hw1 Hc Hw2 Hd2 Hw3 _.
    split; [by eapply parse_range_shape|done].
  - intros n m Hmn Hn. split; [|done].
    apply parse_range_text_small; lia.
Qed.

(** The theorem at "5-3 years": the pair (5, 3) is accepted. *)
Lemma parse_experience_text_unordered_witness :
  parse_experience_text (U := latin1) (Some (range_text 5 3))
  = Ok (Some 5%Z, Some 3%Z)
  ∧ experience_matches_at (Some 5%Z) (Some 3%Z) = (BothBounds, true).
Proof.
  destruct (@parse_experience_text_unordered latin1) as [_ Hsmall].
  apply (Hsmall 5 3); lia.
Defined.

(** ** Experience-range acceptance *)

(** C2. Against the band (2, 6): no stated requirement is accepted; a
    pair (min, max) is accepted exactly when not (max < 2 or min > 6),
    which for min <= max says that [min, max] and [2, 6] share a point; a
    lone min exactly when min <= 6; a lone max exactly when max >= 2.
    (7, 9) is rejected and (1, 3) accepted. *)
Theorem experience_matches_band :
  experience_matches None None = true
  ∧ (∀ mn mx : Z,
        experience_matches (Some mn) (Some mx) = true ↔ ¬ (mx < 2 ∨ mn > 6))%Z
  ∧ (∀ mn mx : Z, mn ≤ mx →
        experience_matches (Some mn) (Some mx) = true
        ↔ ∃ y, mn ≤ y ≤ mx ∧ 2 ≤ y ≤ 6)%Z
  ∧ (∀ mn : Z, experience_matches (Some mn) None = true ↔ mn ≤ 6)%Z
  ∧ (∀ mx : Z, experience_matches None (Some mx) = true ↔ 2 ≤ mx)%Z
  ∧ experience_matches (Some 7%Z) (Some 9%Z) = false
  ∧ experience_matches (Some 1%Z) (Some 3%Z) = true.
Proof.
  unfold experience_matches, experience_matches_at, MIN_YEARS, MAX_YEARS.
  cbn [snd]. split_and!; try done.
  - intros mn mx. rewrite negb_true_iff, orb_false_iff, Z.ltb_ge, Z.gtb_ltb, Z.ltb_ge. lia.
  - intros mn mx Hle.
    rewrite negb_true_iff, orb_false_iff, Z.ltb_ge, Z.gtb_ltb, Z.ltb_ge.
    split.
    + intros [? ?]. exists (Z.max mn 2). lia.
    + intros (y & ? & ?). lia.
  - intros mn. apply Z.leb_le.
  - intros mx. rewrite Z.geb_leb, Z.leb_le. lia.
Qed.

(** The interval reading of the theorem at (1, 3). *)
Lemma experience_matches_band_witness :
  (experience_matches (Some 1) (Some 3) = true
   ↔ ∃ y, 1 ≤ y ≤ 3 ∧ 2 ≤ y ≤ 6)%Z.
Proof.
  destruct experience_matches_band as (_ & _ & Hoverlap & _).
  apply Hoverlap. lia.
Defined.

(** C6. The extractor always returns, and never a maximum without a
    minimum; so on what it returns [experience_matches] leaves neither by
    its "only max" return nor by the final [return False]. *)
Theorem parse_experience_text_no_lone_max `{UCD} (text : option str) :
  ∃ mn mx,
    parse_experience_text text = Ok (mn, mx)
    ∧ (mn = None → mx = None)
    ∧ (experience_matches_at mn mx).1 ≠ OnlyMax
    ∧ (experience_matches_at mn mx).1 ≠ Fallthrough.
Proof.
  rewrite parse_experience_text_table.
  destruct (extractExperience text) as [mn mx] eqn:E.
  exists mn, mx. split; [done|].
  pose proof (extractExperience_min_first _ _ _ E) as Hmin.
  split; [done|]. destruct mn as [mn|].
  - by destruct mx.
  - by rewrite Hmin.
Qed.

(** ** The filter *)

Section Filter.

Context {U : UCD}.

Lemma combined_text_blob j :
  combined_text j
  = normalize_text
      (Some (or_empty (title j) ++ str_of " " ++ or_empty (company j)
             ++ str_of " " ++ or_empty (location j) ++ str_of " "
             ++ or_empty (snippet j))).
Proof. done. Qed.

(** One turn of the loop never raises, and keeps the record exactly when
    the three checks pass. *)
Lemma filter_step_qualifies j :
  filter_step j = Ok (if qualifies j then Kept
                      else if negb (isRelevant (combined_text j)) then Irrelevant
                      else if negb (matchesRange
                                      (extractExperience (Some (combined_text j))))
                      then WrongExperience else WrongLocation).
Proof.
  unfold filter_step, qualifies. rewrite <- combined_text_blob.
  unfold isRelevant. destruct (text_contains_keywords _ _); [|done].
  cbn [negb andb]. rewrite parse_experience_text_table.
  destruct (extractExperience _) as [mn mx]. cbn [mbind result_bind].
  unfold matchesRange. cbn [fst snd].
  destruct (experience_matches mn mx); [|done]. cbn [negb andb].
  change (or_else (location j) (snippet j))
    with (if truthy (location j) then location j else snippet j).
  by destruct (location_matches _).
Qed.

Lemma filter_step_kept j :
  ∃ v, filter_step j = Ok v ∧ (v = Kept ↔ qualifies j = true).
Proof.
  rewrite filter_step_qualifies. eexists. split; [done|].
  destruct (qualifies j); [done|].
  by repeat destruct (negb _).
Qed.

Lemma filter_loop_filter raw_jobs filtered :
  filter_loop raw_jobs filtered
  = Ok (filtered ++ filter (λ j, qualifies j = true) raw_jobs).
Proof.
  revert filtered. induction raw_jobs as [|j rest IH]; intros filtered.
  - by rewrite filter_nil, app_nil_r.
  - cbn [filter_loop].
    destruct (filter_step_kept j) as (v & -> & Hv). cbn [mbind result_bind].
    rewrite IH, filter_cons. destruct (decide (qualifies j = true)) as [Hq|Hq].
    + rewrite (proj2 Hv Hq). by rewrite <- app_assoc.
    + destruct v; try done. by destruct Hq; apply Hv.
Qed.

Lemma filter_jobs_filter raw_jobs :
  filter_jobs raw_jobs = Ok (filter (λ j, qualifies j = true) raw_jobs).
Proof. apply filter_loop_filter. Qed.

Lemma contains_nil needle : needle ≠ [] → contains needle [] = false.
Proof. by destruct needle. Qed.

Lemma keywords_not_in_empty kws :
  forallb (λ kw, negb (bool_decide (kw = [])) && forallb (λ c, c <? 128) kw) kws
  = true →
  existsb (λ kw, contains (lower kw) []) kws = false.
Proof.
  induction kws as [|kw kws IH]; [done|]. cbn [forallb existsb].
  intros [[Hne Hascii]%andb_true_iff Hkws]%andb_true_iff.
  rewrite IH, orb_false_r by done. apply contains_nil.
  rewrite lower_ascii.
  - apply negb_true_iff, bool_decide_eq_false in Hne. by destruct kw.
  - apply Forall_forall. intros c Hc%list_elem_of_In.
    rewrite forallb_forall in Hascii. by apply N.ltb_lt, Hascii.
Qed.

Lemma text_contains_keywords_empty text :
  truthy text = false → text_contains_keywords text KEYWORDS = false.
Proof.
  intros Ht. unfold text_contains_keywords.
  assert (or_empty text = []) as -> by (by destruct text as [[|]|]).
  rewrite lower_nil. by rewrite keywords_not_in_empty.
Qed.

Lemma combined_text_empty j :
  truthy (title j) = false → truthy (company j) = false →
  truthy (location j) = false → truthy (snippet j) = false →
  combined_text j = [].
Proof.
  intros Ht Hc Hl Hs. unfold combined_text.
  assert (Hempty : ∀ t, truthy t = false → or_empty t = [])
    by (by intros [[|]|]).
  by rewrite !Hempty.
Qed.

End Filter.

(** C4. The filter never raises and returns, in the order of its input
    and as they came, exactly the records that qualify: relevant by
    keyword on the normalised text of title, company, location and
    snippet, acceptable by the experience range read from that text, and
    acceptable by location, read from the location field or, when that is
    absent or empty, from the snippet. *)
Theorem filter_jobs_qualifies `{UCD} (raw_jobs : list job) :
  ∃ filtered,
    filter_jobs raw_jobs = Ok filtered
    ∧ filtered = filter (λ j, qualifies j = true) raw_jobs
    ∧ (∀ j, j ∈ filtered ↔ j ∈ raw_jobs ∧ qualifies j = true)
    ∧ sublist filtered raw_jobs.
Proof.
  eexists. split; [apply filter_jobs_filter|].
  split_and!; [done| |apply sublist_filter].
  intros j. rewrite list_elem_of_filter. tauto.
Qed.

(** C10. Nothing is relevant in no text: [text_contains_keywords] is
    false on [None] and on the empty string; so a record whose title,
    company, location and snippet are all absent or empty leaves the loop
    of [filter_jobs] at its first [continue], before the experience and
    location checks, and is in no result of the filter. *)
Theorem filter_jobs_drops_blank `{UCD} :
  text_contains_keywords None KEYWORDS = false
  ∧ text_contains_keywords (Some []) KEYWORDS = false
  ∧ ∀ j,
      truthy (title j) = false → truthy (company j) = false →
      truthy (location j) = false → truthy (snippet j) = false →
      filter_step j = Ok Irrelevant
      ∧ ∀ raw_jobs, ∃ filtered,
          filter_jobs raw_jobs = Ok filtered ∧ j ∉ filtered.
Proof.
  split_and!; [by apply text_contains_keywords_empty..|].
  intros j Ht Hc Hl Hs.
  assert (Hstep : filter_step j = Ok Irrelevant).
  { unfold filter_step. rewrite combined_text_empty by done.
    by rewrite text_contains_keywords_empty. }
  split; [done|]. intros raw_jobs.
  eexists. split; [apply filter_jobs_filter|].
  intros [Hq _]%list_elem_of_filter.
  rewrite filter_step_qualifies, Hq in Hstep. discriminate Hstep.
Qed.

(** The theorem at a record that has only a link. *)
Lemma filter_jobs_drops_blank_witness :
  let j := Job None (Some []) None (Some (str_of "https://example.org/1"))
             (Some (str_of "Indeed")) (Some []) in
  filter_step (U := latin1) j = Ok Irrelevant
  ∧ ∀ raw_jobs, ∃ filtered,
      filter_jobs (U := latin1) raw_jobs = Ok filtered ∧ j ∉ filtered.
Proof.
  destruct (@filter_jobs_drops_blank latin1) as (_ & _ & Hblank).
  apply Hblank; reflexivity.
Defined.

(** The specification's scenarios, run. *)
Example extract_range :
  parse_experience_text (U := latin1) (Some (str_of "3-5 years of experience"))
  = Ok (Some 3%Z, Some 5%Z).
Proof. by vm_compute. Qed.

Example extract_open_ended :
  parse_experience_text (U := latin1) (Some (str_of "5+ years required"))
  = Ok (Some 5%Z, None).
Proof. by vm_compute. Qed.

Example extract_minimum :
  parse_experience_text (U := latin1) (Some (str_of "Minimum of 4 years"))
  = Ok (Some 4%Z, None).
Proof. by vm_compute. Qed.

Example extract_bare :
  parse_experience_text (U := latin1) (Some (str_of "7 year track record"))
  = Ok (Some 7%Z, Some 7%Z).
Proof. by vm_compute. Qed.

Example filter_remote_platform_engineer :
  filter_step (U := latin1)
    {| title := Some []; company := None; location := Some (str_of "Remote");
       link := Some (str_of "https://example.org/a"); source := None;
       snippet := Some (str_of "Platform Engineer, 2-4 years, distributed systems") |}
  = Ok Kept.
Proof. by vm_compute. Qed.

Example filter_new_york :
  filter_step (U := latin1)
    {| title := Some (str_of "DevOps Engineer"); company := None;
       location := Some (str_of "New York");
       link := Some (str_of "https://example.org/b"); source := None;
       snippet := Some (str_of "3 years, remote") |}
  = Ok WrongLocation.
Proof. by vm_compute. Qed.

(** ** The aggregator *)

Section Dedup.

Lemma job_key_link j :
  job_key j
  = if truthy (link j) then or_empty (link j)
    else if truthy (title j) then or_empty (title j) else [].
Proof.
  unfold job_key, or_else.
  by destruct (link j) as [[|]|], (title j) as [[|]|].
Qed.

Lemma dedup_dict_snoc jobs j :
  dedup_dict (jobs ++ [j]) = dedup_step (dedup_dict jobs) j.
Proof. unfold dedup_dict. by rewrite foldl_app. Qed.

(** What a step does, by cases. *)
Lemma dedup_step_cases uniq j :
  (job_key j = [] ∨ job_key j ∈ uniq.*1) ∧ dedup_step uniq j = uniq
  ∨ (job_key j ≠ [] ∧ job_key j ∉ uniq.*1)
    ∧ dedup_step uniq j = uniq ++ [(job_key j, j)].
Proof.
  unfold dedup_step. destruct (job_key j) as [|c k] eqn:Hk; cbn [truthy negb].
  - left. by split; [left|].
  - destruct (decide (c :: k ∈ uniq.*1)) as [Hin|Hin].
    + rewrite bool_decide_true by done. left. by split; [right|].
    + rewrite bool_decide_false by done. right. by split.
Qed.

(** The dict after any prefix of the loop. *)
Lemma dedup_dict_invariant jobs :
  (dedup_dict jobs).*1 = job_key <$> (dedup_dict jobs).*2
  ∧ NoDup (dedup_dict jobs).*1
  ∧ (∀ k, k ∈ (dedup_dict jobs).*1 ↔ k ≠ [] ∧ k ∈ job_key <$> jobs)
  ∧ sublist (dedup_dict jobs).*2 jobs
  ∧ (∀ j, j ∈ (dedup_dict jobs).*2 →
       ∃ l1 l2, jobs = l1 ++ j :: l2 ∧ job_key j ∉ job_key <$> l1).
Proof.
  induction jobs as [|j jobs (Hkeys & Hnodup & Hdom & Hsub & Hfirst)]
    using rev_ind.
  { split_and!; [done|constructor| |done|].
    - intros k. split; [by intros ?%elem_of_nil|]. by intros [_ ?%elem_of_nil].
    - by intros j ?%elem_of_nil. }
  rewrite dedup_dict_snoc.
  destruct (dedup_step_cases (dedup_dict jobs) j) as [[Hold ->]|[[Hne Hnew] ->]].
  - split_and!; [done|done| |by apply sublist_inserts_r|].
    + intros k. rewrite Hdom, fmap_app, elem_of_app. cbn [fmap list_fmap].
      rewrite list_elem_of_singleton. split; [by intros [? ?]; split; [|left]|].
      intros [Hk [?| ->]]; [done|]. split; [done|].
      destruct Hold as [?|Hin]; [done|]. by apply Hdom in Hin as [_ ?].
    + intros j' (l1 & l2 & -> & Hl1)%Hfirst.
      exists l1, (l2 ++ [j]). by rewrite <- app_assoc.
  - rewrite !fmap_app. cbn [fmap list_fmap]. split_and!.
    + by rewrite Hkeys.
    + apply NoDup_app. split_and!; [done| |apply NoDup_singleton].
      intros k Hk ->%list_elem_of_singleton. done.
    + intros k. rewrite !elem_of_app, !list_elem_of_singleton, Hdom.
      split; [|intros [Hk [?| ->]]; [by left|by right]].
      intros [[? ?]| ->]; (split; [done|]); [by left|by right].
    + by apply sublist_app.
    + intros j' [Hj'| ->%list_elem_of_singleton]%elem_of_app.
      * apply Hfirst in Hj' as (l1 & l2 & -> & Hl1).
        exists l1, (l2 ++ [j]). by rewrite <- app_assoc.
      * exists jobs, []. split; [done|]. intros Hin. apply Hnew, Hdom. done.
Qed.

Lemma first_occurrence_lt jobs i : first_occurrence jobs i → (i < length jobs)%nat.
Proof. intros (j & Hj & _). by eapply lookup_lt_Some. Qed.

Lemma first_occurrence_app_l jobs l i :
  (i < length jobs)%nat →
  first_occurrence (jobs ++ l) i ↔ first_occurrence jobs i.
Proof.
  intros Hi. unfold first_occurrence. rewrite lookup_app_l by done.
  split; intros (j & Hj & Hne & Hfirst); exists j; split_and!; try done.
  - intros i' j' Hi' Hj'. apply (Hfirst i' j' Hi').
    by rewrite lookup_app_l by lia.
  - intros i' j' Hi' Hj'. apply (Hfirst i' j' Hi').
    by rewrite lookup_app_l in Hj' by lia.
Qed.

Lemma first_occurrence_snoc jobs j :
  first_occurrence (jobs ++ [j]) (length jobs)
  ↔ job_key j ≠ [] ∧ job_key j ∉ job_key <$> jobs.
Proof.
  unfold first_occurrence. rewrite list_lookup_middle by done. split.
  - intros (? & [= <-] & Hne & Hfirst). split; [done|].
    intros (j' & Hk & (i' & Hi')%list_elem_of_lookup_1)%list_elem_of_fmap.
    apply (Hfirst i' j'); [by eapply lookup_lt_Some| |done].
    rewrite lookup_app_l; [done|by eapply lookup_lt_Some].
  - intros [Hne Hnew]. exists j. split_and!; [done..|].
    intros i' j' Hi' Hj' Hk. rewrite lookup_app_l in Hj' by done.
    apply Hnew. rewrite <- Hk. by eapply list_elem_of_fmap_2, list_elem_of_lookup_2.
Qed.

Lemma dedup_positions jobs :
  ∃ ps, first_positions jobs ps ∧ picked jobs ps (dedup jobs).
Proof.
  unfold dedup, first_positions, picked.
  induction jobs as [|j jobs (ps & [Hsorted Hmem] & Hpick)] using rev_ind.
  { exists []. split; [split|]; [constructor| |by constructor].
    intros i. split; [by intros ?%elem_of_nil|].
    intros Hi%first_occurrence_lt. simpl in Hi. lia. }
  assert (Hlt : Forall (λ i, (i < length jobs)%nat) ps).
  { apply Forall_forall. intros i Hi. by apply first_occurrence_lt, Hmem. }
  assert (Hold : Forall2 (λ i j0, (jobs ++ [j]) !! i = Some j0) ps
                   (dedup_dict jobs).*2).
  { eapply Forall2_impl; [exact Hpick|]. cbn.
    intros i j0 Hj0. by apply lookup_app_l_Some. }
  destruct (dedup_dict_invariant jobs) as (_ & _ & Hdom & _).
  rewrite dedup_dict_snoc.
  destruct (dedup_step_cases (dedup_dict jobs) j) as [[Hskip ->]|[[Hne Hnew] ->]].
  - exists ps. split_and!; [done| |done].
    intros i. rewrite Hmem. destruct (decide (i < length jobs)%nat) as [Hi|Hi].
    { by rewrite first_occurrence_app_l. }
    split; [by intros ?%first_occurrence_lt|].
    intros Hfirst. pose proof (first_occurrence_lt _ _ Hfirst) as Hi'.
    rewrite length_app in Hi'. cbn in Hi'.
    assert (i = length jobs) as -> by lia.
    apply first_occurrence_snoc in Hfirst as [Hne Hnew].
    destruct Hskip as [?|Hin]; [done|].
    by apply Hdom in Hin as [_ ?].
  - exists (ps ++ [length jobs]). split_and!.
    + apply StronglySorted_app. split_and!; [|done|repeat constructor].
      intros i1 i2 Hi1 ->%list_elem_of_singleton.
      rewrite Forall_forall in Hlt. by apply Hlt.
    + intros i. rewrite elem_of_app, list_elem_of_singleton, Hmem.
      destruct (decide (i < length jobs)%nat) as [Hi|Hi].
      { rewrite first_occurrence_app_l by done. split; [|by left].
        intros [?| ->]; [done|lia]. }
      split.
      * intros [?%first_occurrence_lt| ->]; [done|].
        apply first_occurrence_snoc. split; [done|]. intros Hin. apply Hnew, Hdom. done.
      * intros Hfirst. pose proof (first_occurrence_lt _ _ Hfirst) as Hi'.
        rewrite length_app in Hi'. cbn in Hi'. right. lia.
    + rewrite fmap_app. apply Forall2_app; [done|].
      constructor; [|constructor]. cbn. by apply list_lookup_middle.
Qed.

(** Positions in increasing order are determined by the positions they
    hold, and so ps what ps picked at them. *)
Lemma sorted_positions_unique (ps1 ps2 : list nat) :
  StronglySorted lt ps1 → StronglySorted lt ps2 →
  (∀ i, i ∈ ps1 ↔ i ∈ ps2) → ps1 = ps2.
Proof.
  intros H1. revert ps2. induction H1 as [|a ps1 H1 IH Ha]; intros ps2 H2 Hmem.
  - destruct ps2 as [|b ps2]; [done|].
    assert (b ∈ ([] : list nat)) as ?%elem_of_nil; [|done]. apply Hmem. by left.
  - destruct H2 as [|b ps2 H2 Hb].
    { assert (a ∈ ([] : list nat)) as ?%elem_of_nil; [|done]. apply Hmem. by left. }
    rewrite Forall_forall in Ha, Hb.
    assert (a = b) as <-.
    { assert (a ∈ b :: ps2) as [->|Hin1]%elem_of_cons by (apply Hmem; by left); [done|].
      assert (b ∈ a :: ps1) as [->|Hin2]%elem_of_cons by (apply Hmem; by left); [done|].
      apply Hb in Hin1. apply Ha in Hin2. lia. }
    f_equal. apply IH; [done|]. intros i. split; intros Hi.
    + assert (i ∈ a :: ps2) as [->|?]%elem_of_cons by (apply Hmem; by right); [|done].
      apply Ha in Hi. lia.
    + assert (i ∈ a :: ps1) as [->|?]%elem_of_cons by (apply Hmem; by right); [|done].
      apply Hb in Hi. lia.
Qed.

Lemma picked_unique jobs ps out1 out2 :
  picked jobs ps out1 → picked jobs ps out2 → out1 = out2.
Proof.
  unfold picked. intros H1. revert out2.
  induction H1 as [|i j ps out1 Hj _ IH]; intros out2 H2.
  - by apply Forall2_nil_inv_l in H2.
  - apply Forall2_cons_inv_l in H2 as (j' & out2' & Hj' & H2 & ->).
    f_equal; [congruence|by apply IH].
Qed.

End Dedup.

(** C3. A record's key is its link, or its title when it has no link,
    or empty.  The aggregator's output has no two records with the same
    key; no record of it has an empty key; it is a subsequence of the
    input; each of its records is the first of the input with its key;
    and every non-empty key of the input is the key of one of its
    records.  Its order is the order of first occurrences: the output is
    made of the records at the positions of the input where a non-empty
    key occurs for the first time, taken in increasing order of
    position; and it is the only list that is. *)
Theorem dedup_first_occurrences (jobs : list job) :
  (∀ j, job_key j
        = if truthy (link j) then or_empty (link j)
          else if truthy (title j) then or_empty (title j) else [])
  ∧ NoDup (job_key <$> dedup jobs)
  ∧ (∀ j, j ∈ dedup jobs → job_key j ≠ [])
  ∧ sublist (dedup jobs) jobs
  ∧ (∀ j, j ∈ dedup jobs →
       ∃ l1 l2, jobs = l1 ++ j :: l2 ∧ job_key j ∉ job_key <$> l1)
  ∧ (∀ j, j ∈ jobs → job_key j ≠ [] → job_key j ∈ job_key <$> dedup jobs)
  ∧ (∃ ps, first_positions jobs ps ∧ picked jobs ps (dedup jobs))
  ∧ (∀ ps out, first_positions jobs ps → picked jobs ps out → out = dedup jobs).
Proof.
  destruct (dedup_dict_invariant jobs) as (Hkeys & Hnodup & Hdom & Hsub & Hfirst).
  destruct (dedup_positions jobs) as (ps & Hpos & Hpick).
  unfold dedup in *. rewrite <- Hkeys.
  split_and!; [apply job_key_link|done| |done|done| |by exists ps|].
  - intros j Hj. assert (job_key j ∈ (dedup_dict jobs).*1) as Hin.
    { rewrite Hkeys. by apply list_elem_of_fmap_2. }
    by apply Hdom in Hin as [? _].
  - intros j Hj Hne. apply Hdom. split; [done|]. by apply list_elem_of_fmap_2.
  - intros ps' out [Hs' Hm'] Hout. destruct Hpos as [Hs Hm].
    assert (ps' = ps) as ->.
    { apply sorted_positions_unique; [done..|]. intros i. by rewrite Hm, Hm'. }
    by eapply picked_unique.
Qed.

(** ** Failures stay inside an adapter *)

Section Total.

Context {S : Type}.

Lemma total_ret {A} (a : A) : total (mret a : prog S A).
Proof. intros s. by exists a, s. Qed.

Lemma total_bind {A B} (m : prog S A) (f : A → prog S B) :
  total m → (∀ a, total (f a)) → total (m ≫= f).
Proof.
  intros Hm Hf s. unfold mbind, prog_bind.
  destruct (Hm s) as (a & s' & ->). apply Hf.
Qed.

Lemma total_for_each {X} (l : list X) (body : X → prog S ()) :
  (∀ x, total (body x)) → total (for_each l body).
Proof.
  intros Hbody. induction l as [|x l IH]; cbn [for_each].
  - apply total_ret.
  - by apply total_bind.
Qed.

End Total.

Lemma total_with_local {L A} (init : L) (body : prog (world * L) A) :
  total body → total (with_local init body).
Proof.
  intros Hbody w. unfold with_local.
  destruct (Hbody (w, init)) as (a & [w' l] & ->). by exists a, w'.
Qed.

Lemma total_in_world {L A} (m : prog world A) :
  total m → total (in_world m : prog (world * L) A).
Proof.
  intros Hm [w l]. unfold in_world. destruct (Hm w) as (a & w' & ->).
  by eexists _, _.
Qed.

Lemma total_get_local {L} : total (get_local : prog (world * L) L).
Proof. intros [w l]. by eexists _, _. Qed.

Lemma total_set_local {L} (f : L → L) : total (set_local f).
Proof. intros [w l]. by eexists _, _. Qed.

Lemma total_print line : total (print line).
Proof. intros w. by eexists _, _. Qed.

Section Containment.

Context {W : web}.

Lemma scrape_indeed_fails query_kw cls msg w :
  fails (indeed_url query_kw) None indeed_selector cls msg →
  ∃ took, scrape_indeed query_kw w
          = (Ok [], logged w took (str_of "Indeed scrape error: " ++ msg)).
Proof.
  unfold scrape_indeed, with_local, try_except, mbind, prog_bind, in_world,
    of_result.
  intros [Hget|(r & Hget & [Hparse|(sp & Hparse & Hsel)])]; rewrite Hget.
  - by exists false.
  - cbn. rewrite Hparse. by exists true.
  - cbn. rewrite Hparse, Hsel. by exists true.
Qed.

Lemma scrape_wellfound_fails query_kw cls msg w :
  fails (wellfound_url query_kw) None wellfound_selector cls msg →
  ∃ took, scrape_wellfound query_kw w
          = (Ok [], logged w took (str_of "Wellfound scrape error: " ++ msg)).
Proof.
  unfold scrape_wellfound, with_local, try_except, mbind, prog_bind, in_world,
    of_result.
  intros [Hget|(r & Hget & [Hparse|(sp & Hparse & Hsel)])]; rewrite Hget.
  - by exists false.
  - cbn. rewrite Hparse. by exists true.
  - cbn. rewrite Hparse, Hsel. by exists true.
Qed.

Lemma scrape_generic_site_search_fails domain kw cls msg w :
  fails search_url (Some (search_query domain kw)) search_selector cls msg →
  ∃ took, scrape_generic_site_search domain kw w
          = (Ok [], logged w took (str_of "Generic search error for "
                                     ++ domain ++ str_of " " ++ msg)).
Proof.
  unfold scrape_generic_site_search, with_local, try_except, mbind, prog_bind,
    in_world, of_result.
  intros [Hget|(r & Hget & [Hparse|(sp & Hparse & Hsel)])]; rewrite Hget.
  - by exists false.
  - cbn. rewrite Hparse. by exists true.
  - cbn. rewrite Hparse, Hsel. by exists true.
Qed.

(** The guarded part the three adapters share: request, pause, parse,
    select, loop. *)
Lemma total_guarded {L} url params selector
    (loop : list tag → prog (world * L) ())
    (handler : string → str → prog (world * L) ()) :
  web_catchable →
  (∀ cards, total (loop cards)) →
  (∀ cls e, total (handler cls e)) →
  total (try_except
           (r ← in_world (of_result (http_get url params));
            in_world sleep;;
            soup ← in_world (of_result (parse_html r));
            cards ← in_world (of_result (select soup selector));
            loop cards)
           handler).
Proof.
  intros (Hget & Hparse & Hsel) Hloop Hhandler [w l].
  assert (Hcaught : ∀ e s, catchable e → ∃ a s',
    match (Raise e, s) : result () * (world * L) with
    | (Raise (Exception cls msg), s') => handler cls msg s'
    | r => r
    end = (Ok a, s')).
  { intros [cls msg|] s; [intros _|done]. apply Hhandler. }
  unfold try_except, mbind, prog_bind, in_world, of_result.
  destruct (http_get url params) as [r|e] eqn:Eget;
    [|by apply Hcaught, (Hget url params)].
  cbn. destruct (parse_html r) as [sp|e] eqn:Eparse;
    [|by apply Hcaught, (Hparse r)].
  destruct (select sp selector) as [cards|e] eqn:Esel;
    [|by apply Hcaught, (Hsel sp selector)].
  destruct (Hloop cards
              (World (stdout w) (files w) (outbox w) (S (pauses w)), l))
    as ([] & s' & ->).
  by eexists _, _.
Qed.

Lemma total_wellfound_turn a : total (wellfound_turn a).
Proof.
  unfold wellfound_turn. destruct (negb _); [apply total_ret|].
  apply total_bind; [apply total_get_local|]. intros [results seen].
  destruct (bool_decide _); [apply total_ret|apply total_set_local].
Qed.

Lemma total_scrape_indeed query_kw :
  web_catchable → total (scrape_indeed query_kw).
Proof.
  intros Hweb. apply total_with_local, total_bind.
  - apply total_guarded; [done| |].
    + intros cards. apply total_for_each. intros a. apply total_set_local.
    + intros _ e. apply total_in_world, total_print.
  - intros _. apply total_get_local.
Qed.

Lemma total_scrape_wellfound query_kw :
  web_catchable → total (scrape_wellfound query_kw).
Proof.
  intros Hweb. apply total_with_local, total_bind.
  - apply total_guarded; [done| |].
    + intros cards. apply total_for_each, total_wellfound_turn.
    + intros _ e. apply total_in_world, total_print.
  - intros _. apply total_bind; [apply total_get_local|].
    intros [results seen]. apply total_ret.
Qed.

Lemma total_scrape_generic_site_search domain kw :
  web_catchable → total (scrape_generic_site_search domain kw).
Proof.
  intros Hweb. apply total_with_local, total_bind.
  - apply total_guarded; [done| |].
    + intros cards. apply total_for_each. intros a. apply total_set_local.
    + intros _ e. apply total_in_world, total_print.
  - intros _. apply total_get_local.
Qed.

(** A call of an adapter from a loop of [collect_jobs]. *)
Lemma total_extend (adapter : prog world (list job)) :
  total adapter →
  total (found ← in_world adapter; set_local (λ jobs, jobs ++ found)).
Proof.
  intros Hadapter. apply total_bind; [by apply total_in_world|].
  intros found. apply total_set_local.
Qed.

Lemma total_collect_jobs : web_catchable → total collect_jobs.
Proof.
  intros Hweb. apply total_with_local.
  apply total_bind; [|intros _; apply total_bind; [|intros _; apply total_bind]].
  - apply total_for_each. intros kw. by apply total_extend, total_scrape_indeed.
  - apply total_for_each. intros kw. by apply total_extend, total_scrape_wellfound.
  - apply total_for_each. intros domain. apply total_for_each. intros kw.
    by apply total_extend, total_scrape_generic_site_search.
  - intros _. apply total_bind; [apply total_get_local|]. intros jobs.
    apply total_bind; [apply total_in_world, total_print|]. intros _.
    apply total_ret.
Qed.

End Containment.

(** C5. A request, parse or selection that raises an exception inside an
    adapter is caught there: the adapter prints a line and returns the
    empty list; and over a web that raises nothing but exceptions every
    adapter, and the whole collection, returns. *)
Theorem adapters_contain_failures `{web} :
  (∀ query_kw cls msg w,
      fails (indeed_url query_kw) None indeed_selector cls msg →
      ∃ took, scrape_indeed query_kw w
              = (Ok [], logged w took (str_of "Indeed scrape error: " ++ msg)))
  ∧ (∀ query_kw cls msg w,
        fails (wellfound_url query_kw) None wellfound_selector cls msg →
        ∃ took, scrape_wellfound query_kw w
                = (Ok [], logged w took
                            (str_of "Wellfound scrape error: " ++ msg)))
  ∧ (∀ domain kw cls msg w,
        fails search_url (Some (search_query domain kw)) search_selector
          cls msg →
        ∃ took, scrape_generic_site_search domain kw w
                = (Ok [], logged w took
                            (str_of "Generic search error for "
                             ++ domain ++ str_of " " ++ msg)))
  ∧ (web_catchable →
       (∀ query_kw, total (scrape_indeed query_kw))
       ∧ (∀ query_kw, total (scrape_wellfound query_kw))
       ∧ (∀ domain kw, total (scrape_generic_site_search domain kw))
       ∧ total collect_jobs).
Proof.
  split_and!.
  - apply @scrape_indeed_fails.
  - apply @scrape_wellfound_fails.
  - apply @scrape_generic_site_search_fails.
  - intros Hweb. split_and!.
    + intros kw. by apply total_scrape_indeed.
    + intros kw. by apply total_scrape_wellfound.
    + intros domain kw. by apply total_scrape_generic_site_search.
    + by apply total_collect_jobs.
Qed.

Lemma offline_catchable : web_catchable (W := offline).
Proof. split_and!; [by intros ? ? ? [= <-]|done|done]. Qed.

(** The theorem at a request for "DevOps Engineer" that cannot be made. *)
Lemma adapters_contain_failures_witness :
  (∃ took, scrape_indeed (W := offline) (str_of "DevOps Engineer") fresh
           = (Ok [], logged fresh took
                       (str_of "Indeed scrape error: unreachable")))
  ∧ total (collect_jobs (W := offline)).
Proof.
  destruct (@adapters_contain_failures offline) as (Hindeed & _ & _ & Htotal).
  split.
  - apply (Hindeed _ "ConnectionError"%string). by left.
  - by apply Htotal, offline_catchable.
Defined.

(** ** Delivery falls back to a local file *)

Section Fallback.

Context {U : UCD} {W : web} {H : host}.

Lemma send_email_no_credentials subject html_body w :
  truthy GMAIL_USER = false ∨ truthy GMAIL_APP_PASSWORD = false →
  send_email subject html_body w
  = (Raise (Exception "RuntimeError"
              (str_of "GMAIL_USER and GMAIL_APP_PASSWORD environment variables must be set.")),
     w).
Proof.
  intros Hmissing. unfold send_email.
  assert (negb (truthy GMAIL_USER) || negb (truthy GMAIL_APP_PASSWORD) = true)
    as -> by (destruct Hmissing as [-> | ->]; [done|apply orb_true_r]).
  done.
Qed.

Lemma main_run w raw w1 :
  collect_jobs (printed w (str_of "Starting job collection...")) = (Ok raw, w1) →
  main w
  = let matches := filter (λ j, qualifies j = true) raw in
    let html_body := build_email_html matches in
    try_except (send_email email_subject html_body)
      (λ _ e, print (str_of "Failed to send email: " ++ e);;
              write_file "jobs_output.html" html_body)
      (printed w1 (str_of "Filtered down to "
                     ++ numeral_of (N.of_nat (length matches))
                     ++ str_of " matching jobs")).
Proof.
  intros Hcollect. unfold main, mbind, prog_bind.
  change (print (str_of "Starting job collection...") w)
    with (Ok (), printed w (str_of "Starting job collection...")).
  cbn beta iota. rewrite Hcollect. cbn beta iota.
  unfold of_result. by rewrite filter_jobs_filter.
Qed.

End Fallback.



